(** * Strikers 1945 (pygame): the entity / update / collision / render loop

    A shallow embedding of [main.py].  Sprites are Python objects shared by
    several groups, so the model keeps them in a heap (a list indexed by
    object identity) and lets the groups hold identities, in insertion order
    as pygame's dict-backed groups do.  The pygame calls the program makes
    ([Rect.clamp], [Rect.colliderect], [Surface.blit], [spritecollide],
    [groupcollide], [RenderUpdates.draw], [GroupSingle]) are modelled after the
    library's documented behaviour.  Sound and the fullscreen toggle are left
    out: they do not influence the game state.  Rectangle coordinates are
    unbounded integers; the game keeps them far inside the range of a C int. *)

From Stdlib Require Import ZArith QArith Qround Lia Bool.
From stdpp Require Import base option numbers list.

Local Open Scope Z_scope.

(** ** Game constants (main.py, lines 39-44) *)

Definition MAX_SHOTS : Z := 2.
Definition ENEMY_ODDS : Z := 22.
Definition BULLET_ODDS : Z := 60.
Definition ENEMY_RELOAD : Z := 12.

(** ** pygame.Rect *)

Record Rect := mkRect { rx : Z; ry : Z; rw : Z; rh : Z }.

Definition SCREENRECT : Rect := mkRect 0 0 640 480.

Module Rect.

Definition left (r : Rect) : Z := rx r.
Definition top (r : Rect) : Z := ry r.
Definition right (r : Rect) : Z := rx r + rw r.
Definition bottom (r : Rect) : Z := ry r + rh r.
Definition centerx (r : Rect) : Z := rx r + Z.quot (rw r) 2.
Definition centery (r : Rect) : Z := ry r + Z.quot (rh r) 2.
Definition center (r : Rect) : Z * Z := (centerx r, centery r).
Definition midbottom (r : Rect) : Z * Z := (centerx r, bottom r).

(** [move] and [move_ip]: translation, the size is kept. *)
Definition move (r : Rect) (dx dy : Z) : Rect :=
  mkRect (rx r + dx) (ry r + dy) (rw r) (rh r).

(** [r.top = v] *)
Definition set_top (r : Rect) (v : Z) : Rect :=
  mkRect (rx r) v (rw r) (rh r).

(** One axis of [clamp]: a span at least as long as the target is centred
    on it, otherwise it is pushed back inside. *)
Definition clamp1 (x w ax aw : Z) : Z :=
  if aw <=? w then ax + Z.quot aw 2 - Z.quot w 2
  else if x <? ax then ax
  else if ax + aw <? x + w then ax + aw - w
  else x.

Definition clamp (r a : Rect) : Rect :=
  mkRect (clamp1 (rx r) (rw r) (rx a) (rw a))
         (clamp1 (ry r) (rh r) (ry a) (rh a))
         (rw r) (rh r).

(** [bool(rect)]: a rectangle is true when it has an area. *)
Definition nonzero (r : Rect) : bool :=
  negb (rw r =? 0) && negb (rh r =? 0).

(** [colliderect]: overlap of the interiors; rectangles without an area
    collide with nothing. *)
Definition colliderect (a b : Rect) : bool :=
  nonzero a && nonzero b
  && (Z.min (rx a) (rx a + rw a) <? Z.max (rx b) (rx b + rw b))
  && (Z.min (ry a) (ry a + rh a) <? Z.max (ry b) (ry b + rh b))
  && (Z.min (rx b) (rx b + rw b) <? Z.max (rx a) (rx a + rw a))
  && (Z.min (ry b) (ry b + rh b) <? Z.max (ry a) (ry a + rh a)).

(** [union]: the smallest rectangle covering both. *)
Definition union (a b : Rect) : Rect :=
  let x := Z.min (rx a) (rx b) in
  let y := Z.min (ry a) (ry b) in
  mkRect x y
         (Z.max (rx a + rw a) (rx b + rw b) - x)
         (Z.max (ry a + rh a) (ry b + rh b) - y).

(** [image.get_rect(topleft=...)], [midbottom=...], [center=...] for an
    image of size [sz]. *)
Definition of_topleft (sz : Z * Z) (p : Z * Z) : Rect :=
  mkRect (fst p) (snd p) (fst sz) (snd sz).
Definition of_midbottom (sz : Z * Z) (p : Z * Z) : Rect :=
  mkRect (fst p - Z.quot (fst sz) 2) (snd p - snd sz) (fst sz) (snd sz).
Definition of_center (sz : Z * Z) (p : Z * Z) : Rect :=
  mkRect (fst p - Z.quot (fst sz) 2) (snd p - Z.quot (snd sz) 2)
         (fst sz) (snd sz).

(** One axis of the clipping [Surface.blit] applies to its destination:
    the start and the length of the part of [x, x+w) inside [cx, cx+cw). *)
Definition clip1 (x w cx cw : Z) : Z * Z :=
  let d := cx - x in
  let '(x1, w1) := if 0 <? d then (x + d, w - d) else (x, w) in
  let e := x1 + w1 - cx - cw in
  (x1, if 0 <? e then w1 - e else w1).

(** The rectangle [screen.blit(image, rect)] returns: the pixels of the
    image, put at the rectangle's top left corner, that fall on the screen;
    an empty rectangle when none does. *)
Definition blit (sz : Z * Z) (dest : Rect) : Rect :=
  let '(x, w) := clip1 (rx dest) (fst sz) (rx SCREENRECT) (rw SCREENRECT) in
  let '(y, h) := clip1 (ry dest) (snd sz) (ry SCREENRECT) (rh SCREENRECT) in
  if (0 <? w) && (0 <? h) then mkRect x y w h else mkRect x y 0 0.

End Rect.

#[global] Instance Rect_eq_dec : EqDecision Rect.
Proof. solve_decision. Defined.

(** ** The sprite classes *)

(** Number of frames per class, as [load_images] fills them. *)
Definition len_Player_images : Z := 3.
Definition len_Enemy_images : Z := 1.

Module Player.

Definition speed : Z := 10.
Definition bounce : Z := 24.
Definition gun_offset : Z := -11.
Definition animcycle : Z := 12.

Record t := mk {
  image : Z;          (* index into Player.images *)
  rect : Rect;
  reloading : bool;
  origtop : Z;
  facing : Z;
  frame : Z
}.

(** [__init__], for a first frame of size [sz]. *)
Definition init (sz : Z * Z) : t :=
  let r := Rect.of_midbottom sz (Rect.midbottom SCREENRECT) in
  mk 0 r false (Rect.top r) (-1) 0.

Definition move (self : t) (direction : Z) : t :=
  let facing' := if direction =? 0 then facing self else direction in
  let r1 := Rect.move (rect self) (direction * speed) 0 in
  let r2 := Rect.clamp r1 SCREENRECT in
  let image' :=
    if direction <? 0 then 0
    else if 0 <? direction then 1
    else image self in
  let r3 := Rect.set_top r2 (origtop self - (Rect.left r2 / bounce) mod 2) in
  mk image' r3 (reloading self) (origtop self) facing' (frame self).

Definition gunpos (self : t) : Z * Z :=
  (facing self * gun_offset + Rect.centerx (rect self), Rect.top (rect self)).

Definition update (self : t) : t :=
  let frame' := frame self + 1 in
  mk ((frame' / animcycle) mod len_Player_images) (rect self)
     (reloading self) (origtop self) (facing self) frame'.

Definition set_reloading (self : t) (b : bool) : t :=
  mk (image self) (rect self) b (origtop self) (facing self) (frame self).

End Player.

Module Enemy.

Definition speed : Z := 5.
Definition animcycle : Z := 12.

Record t := mk { image : Z; rect : Rect; facing : Z; frame : Z }.

(** [__init__]: [x] is the value [random.random() * SCREENRECT.width] as
    the rectangle stores it, an integer.  How pygame converts the float is
    not part of the program: [new_Enemy] below truncates it, as [int] does;
    a pygame that rounds instead places the enemy one pixel further right
    when the fractional part is one half or more.  The sessions evaluated
    below use samples whose product with the width, 640, is an integer. *)
Definition init (sz : Z * Z) (x : Z) : t :=
  mk 0 (Rect.of_topleft sz (x, - snd sz)) speed 0.

(** [update]; the boolean tells whether the sprite killed itself. *)
Definition update (self : t) : t * bool :=
  let r := Rect.move (rect self) 0 (facing self) in
  let frame' := frame self + 1 in
  (mk ((frame' / animcycle) mod len_Enemy_images) r (facing self) frame',
   rh SCREENRECT <=? Rect.top r).

End Enemy.

Module Explosion.

Definition defaultlife : Z := 12.
Definition animcycle : Z := 3.

Record t := mk { image : Z; rect : Rect; life : Z }.

(** [__init__(actor)], from the actor's rectangle. *)
Definition init (sz : Z * Z) (actor_rect : Rect) : t :=
  mk 0 (Rect.of_center sz (Rect.center actor_rect)) defaultlife.

Definition update (self : t) : t * bool :=
  let life' := life self - 1 in
  (mk ((life' / animcycle) mod 2) (rect self) life', life' <=? 0).

End Explosion.

Module Shot.

Definition speed : Z := -11.

Record t := mk { rect : Rect }.

Definition init (sz : Z * Z) (pos : Z * Z) : t :=
  mk (Rect.of_midbottom sz pos).

(** [update], for an image of height [h]. *)
Definition update (h : Z) (self : t) : t * bool :=
  let r := Rect.move (rect self) 0 speed in
  (mk r, Rect.top r <=? - h).

End Shot.

Module EnemyBullet.

Definition speed : Z := 9.

Record t := mk { rect : Rect }.

Definition init (sz : Z * Z) (enemy_rect : Rect) : t :=
  mk (Rect.of_midbottom sz (Rect.midbottom (Rect.move enemy_rect 0 5))).

Definition update (self : t) : t * bool :=
  let r := Rect.move (rect self) 0 speed in
  (mk r, rh SCREENRECT <=? Rect.bottom r).

End EnemyBullet.

Module Score.

(** The image is the rendering of [lastscore]. *)
Record t := mk { rect : Rect; lastscore : Z }.

(** [__init__], with the global [SCORE] and the size of its rendering. *)
Definition init (sz : Z * Z) (SCORE : Z) : t :=
  mk (Rect.move (Rect.of_topleft sz (0, 0)) 10 450) SCORE.

Definition update (SCORE : Z) (self : t) : t :=
  if SCORE =? lastscore self then self else mk (rect self) SCORE.

End Score.

(** A sprite object is an instance of one of the six classes. *)
Inductive Sprite :=
  | APlayer (p : Player.t)
  | AnEnemy (e : Enemy.t)
  | AnExplosion (x : Explosion.t)
  | AShot (s : Shot.t)
  | AnEnemyBullet (b : EnemyBullet.t)
  | AScore (c : Score.t).

(** The images the presentation layer can be asked to draw. *)
Inductive Image :=
  | PlayerImage (i : Z)
  | EnemyImage (i : Z)
  | ExplosionImage (i : Z)
  | ShotImage
  | EnemyBulletImage
  | ScoreImage (score : Z).

Definition sprite_rect (s : Sprite) : Rect :=
  match s with
  | APlayer p => Player.rect p
  | AnEnemy e => Enemy.rect e
  | AnExplosion x => Explosion.rect x
  | AShot s => Shot.rect s
  | AnEnemyBullet b => EnemyBullet.rect b
  | AScore c => Score.rect c
  end.

Definition sprite_image (s : Sprite) : Image :=
  match s with
  | APlayer p => PlayerImage (Player.image p)
  | AnEnemy e => EnemyImage (Enemy.image e)
  | AnExplosion x => ExplosionImage (Explosion.image x)
  | AShot _ => ShotImage
  | AnEnemyBullet _ => EnemyBulletImage
  | AScore c => ScoreImage (Score.lastscore c)
  end.

(** The assets are not part of the program text: the sizes of the decoded
    images and of the rendered score line are parameters of the model.  The
    two explosion frames are one image and its flip, hence of one size. *)
Record Assets := mkAssets {
  player_size : Z -> Z * Z;
  enemy_size : Z * Z;
  explosion_size : Z * Z;
  shot_size : Z * Z;
  enemy_bullet_size : Z * Z;
  score_size : Z -> Z * Z;
  font_available : bool
}.

Definition image_size (A : Assets) (i : Image) : Z * Z :=
  match i with
  | PlayerImage k => player_size A k
  | EnemyImage _ => enemy_size A
  | ExplosionImage _ => explosion_size A
  | ShotImage => shot_size A
  | EnemyBulletImage => enemy_bullet_size A
  | ScoreImage n => score_size A n
  end.

(** ** The uniform sample

    [random.random()] is a stream of rationals in [0,1); [int] truncates
    towards zero. The product with the odds is taken exactly. *)

Definition py_int (q : Q) : Z :=
  if Qle_bool 0 q then Qfloor q else Qceiling q.

Definition scaled (sample : Q) (n : Z) : Z := py_int (sample * inject_Z n)%Q.

(** ** The state of [main]

    [heap] holds every sprite object ever created, at the position that is
    its identity; a killed sprite stays there (the program still reads the
    rectangle of a killed player and of a killed enemy) but is in no group.
    [all] is the [RenderUpdates] group: each member with the rectangle it was
    last drawn at ([None] until its first draw), and [lostsprites], the last
    rectangles of the members removed since the last draw.  [lastenemy] is the
    [GroupSingle].  [drawn] counts the samples taken from the random
    stream. *)

Record Game := mkGame {
  heap : list Sprite;
  enemies : list nat;
  shots : list nat;
  enemy_bullets : list nat;
  all : list (nat * option Rect);
  lostsprites : list Rect;
  lastenemy : option nat;
  SCORE : Z;
  enemyreload : Z;
  drawn : nat
}.

(** The local variable [player]: the first object [main] creates. *)
Definition player : nat := 0%nat.

Definition set_heap (g : Game) (h : list Sprite) : Game :=
  mkGame h (enemies g) (shots g) (enemy_bullets g) (all g) (lostsprites g)
         (lastenemy g) (SCORE g) (enemyreload g) (drawn g).

Definition set_SCORE (g : Game) (n : Z) : Game :=
  mkGame (heap g) (enemies g) (shots g) (enemy_bullets g) (all g)
         (lostsprites g) (lastenemy g) n (enemyreload g) (drawn g).

Definition set_enemyreload (g : Game) (n : Z) : Game :=
  mkGame (heap g) (enemies g) (shots g) (enemy_bullets g) (all g)
         (lostsprites g) (lastenemy g) (SCORE g) n (drawn g).

(** [random.random()]: the next sample of the stream. *)
Definition draw_sample (random : nat -> Q) (g : Game) : Q * Game :=
  (random (drawn g),
   mkGame (heap g) (enemies g) (shots g) (enemy_bullets g) (all g)
          (lostsprites g) (lastenemy g) (SCORE g) (enemyreload g)
          (S (drawn g))).

(** *** Groups *)

Definition remove_id (id : nat) (l : list nat) : list nat :=
  filter (fun j => j <> id) l.

Definition all_ids (g : Game) : list nat := map fst (all g).

Definition all_lookup (id : nat) (l : list (nat * option Rect))
  : option (option Rect) :=
  snd <$> List.find (fun e => Nat.eqb (fst e) id) l.

(** [RenderUpdates.remove_internal]: a member that was drawn leaves its last
    rectangle behind, to be erased and flushed. *)
Definition lost_rect (id : nat) (l : list (nat * option Rect)) : list Rect :=
  match all_lookup id l with
  | Some (Some r) => if Rect.nonzero r then [r] else []
  | _ => []
  end.

(** [sprite.kill()]: the sprite leaves every group it is in. *)
Definition kill (id : nat) (g : Game) : Game :=
  mkGame (heap g)
         (remove_id id (enemies g))
         (remove_id id (shots g))
         (remove_id id (enemy_bullets g))
         (filter (fun e => fst e <> id) (all g))
         (lostsprites g ++ lost_rect id (all g))
         (match lastenemy g with
          | Some j => if decide (j = id) then None else Some j
          | None => None
          end)
         (SCORE g) (enemyreload g) (drawn g).

(** [sprite.alive()]: the sprite belongs to some group. *)
Definition alive (id : nat) (g : Game) : bool :=
  bool_decide (id ∈ enemies g) || bool_decide (id ∈ shots g)
  || bool_decide (id ∈ enemy_bullets g) || bool_decide (id ∈ all_ids g)
  || bool_decide (lastenemy g = Some id).

(** Adding to a group: a dict keyed by the sprite, so a member is not added
    twice. *)
Definition add_id (id : nat) (l : list nat) : list nat :=
  if decide (id ∈ l) then l else l ++ [id].

Definition add_all (id : nat) (l : list (nat * option Rect))
  : list (nat * option Rect) :=
  if decide (id ∈ map fst l) then l else l ++ [(id, None)].

(** *** Constructors: the object is allocated and joins the containers of
    its class. *)

Definition new_Player (A : Assets) (g : Game) : Game :=
  let id := length (heap g) in
  mkGame (heap g ++ [APlayer (Player.init (player_size A 0))])
         (enemies g) (shots g) (enemy_bullets g) (add_all id (all g))
         (lostsprites g) (lastenemy g) (SCORE g) (enemyreload g) (drawn g).

Definition new_Enemy (A : Assets) (random : nat -> Q) (g : Game) : Game :=
  let id := length (heap g) in
  let '(s, g) := draw_sample random g in
  let x := scaled s (rw SCREENRECT) in
  mkGame (heap g ++ [AnEnemy (Enemy.init (enemy_size A) x)])
         (add_id id (enemies g)) (shots g) (enemy_bullets g)
         (add_all id (all g)) (lostsprites g) (Some id)
         (SCORE g) (enemyreload g) (drawn g).

Definition new_Explosion (A : Assets) (actor_rect : Rect) (g : Game) : Game :=
  let id := length (heap g) in
  mkGame (heap g ++ [AnExplosion (Explosion.init (explosion_size A) actor_rect)])
         (enemies g) (shots g) (enemy_bullets g) (add_all id (all g))
         (lostsprites g) (lastenemy g) (SCORE g) (enemyreload g) (drawn g).

Definition new_Shot (A : Assets) (pos : Z * Z) (g : Game) : Game :=
  let id := length (heap g) in
  mkGame (heap g ++ [AShot (Shot.init (shot_size A) pos)])
         (enemies g) (add_id id (shots g)) (enemy_bullets g)
         (add_all id (all g)) (lostsprites g) (lastenemy g)
         (SCORE g) (enemyreload g) (drawn g).

Definition new_EnemyBullet (A : Assets) (enemy_rect : Rect) (g : Game) : Game :=
  let id := length (heap g) in
  mkGame (heap g ++ [AnEnemyBullet (EnemyBullet.init (enemy_bullet_size A) enemy_rect)])
         (enemies g) (shots g) (add_id id (enemy_bullets g))
         (add_all id (all g)) (lostsprites g) (lastenemy g)
         (SCORE g) (enemyreload g) (drawn g).

(** [Score()] joins no group by itself; [main] adds it to [all]. *)
Definition new_Score (A : Assets) (g : Game) : Game :=
  let id := length (heap g) in
  mkGame (heap g ++ [AScore (Score.init (score_size A (SCORE g)) (SCORE g))])
         (enemies g) (shots g) (enemy_bullets g) (add_all id (all g))
         (lostsprites g) (lastenemy g) (SCORE g) (enemyreload g) (drawn g).

(** The rectangle of an object, as the program reads [sprite.rect]. *)
Definition rect_of (g : Game) (id : nat) : Rect :=
  match heap g !! id with
  | Some s => sprite_rect s
  | None => mkRect 0 0 0 0
  end.

(** ** The main loop *)

Record Input := mkInput {
  quit : bool;        (* a QUIT event or the escape key in the event queue *)
  K_LEFT : bool;
  K_RIGHT : bool;
  K_SPACE : bool
}.

Section Loop.

Variable A : Assets.
Variable random : nat -> Q.

(** *** [all.clear(screen, background)]: the rectangles painted over with
    the background; the groups are not changed. *)
Definition clear (g : Game) : list Rect :=
  lostsprites g
  ++ omap (fun e => match snd e with
                    | Some r => if Rect.nonzero r then Some r else None
                    | None => None
                    end) (all g).

(** *** [all.update()] *)

Definition update_sprite (score : Z) (s : Sprite) : Sprite * bool :=
  match s with
  | APlayer p => (APlayer (Player.update p), false)
  | AnEnemy e => let '(e', k) := Enemy.update e in (AnEnemy e', k)
  | AnExplosion x => let '(x', k) := Explosion.update x in (AnExplosion x', k)
  | AShot s => let '(s', k) := Shot.update (snd (shot_size A)) s in (AShot s', k)
  | AnEnemyBullet b =>
      let '(b', k) := EnemyBullet.update b in (AnEnemyBullet b', k)
  | AScore c => (AScore (Score.update score c), false)
  end.

Definition update_one (g : Game) (id : nat) : Game :=
  match heap g !! id with
  | Some s =>
      let '(s', k) := update_sprite (SCORE g) s in
      let g1 := set_heap g (<[id := s']> (heap g)) in
      if k then kill id g1 else g1
  | None => g
  end.

(** The members are visited in the order of a copy of the member list. *)
Definition all_update (g : Game) : Game :=
  fold_left update_one (all_ids g) g.

(** *** Player input (lines 355-363) *)

Definition direction (i : Input) : Z := Z.b2z (K_RIGHT i) - Z.b2z (K_LEFT i).

(** The condition under which a shot is created. *)
Definition fires (reloading firing : bool) (nshots : nat) : bool :=
  negb reloading && firing && (Z.of_nat nshots <? MAX_SHOTS).

Definition handle_input (i : Input) (g : Game) : Game :=
  match heap g !! player with
  | Some (APlayer p) =>
      let p1 := Player.move p (direction i) in
      let g1 := set_heap g (<[player := APlayer p1]> (heap g)) in
      let firing := K_SPACE i in
      let g2 :=
        if fires (Player.reloading p1) firing (length (shots g1))
        then new_Shot A (Player.gunpos p1) g1
        else g1 in
      set_heap g2 (<[player := APlayer (Player.set_reloading p1 firing)]> (heap g2))
  | _ => g
  end.

(** *** Spawning (lines 365-374) *)

Definition create_enemy (g : Game) : Game :=
  if negb (enemyreload g =? 0) then set_enemyreload g (enemyreload g - 1)
  else
    let '(s, g1) := draw_sample random g in
    if scaled s ENEMY_ODDS =? 0
    then set_enemyreload (new_Enemy A random g1) ENEMY_RELOAD
    else g1.

Definition shoot_enemy_bullets (g : Game) : Game :=
  match lastenemy g with
  | Some e =>
      let '(s, g1) := draw_sample random g in
      if scaled s BULLET_ODDS =? 0
      then new_EnemyBullet A (rect_of g1 e) g1
      else g1
  | None => g
  end.

(** *** Collisions (lines 376-397) *)

Inductive GroupName := Enemies | Shots | EnemyBullets.

Definition members (n : GroupName) (g : Game) : list nat :=
  match n with
  | Enemies => enemies g
  | Shots => shots g
  | EnemyBullets => enemy_bullets g
  end.

(** [pg.sprite.spritecollide(sprite, group, 1)] for a sprite with rectangle
    [r]: the members are tested in turn, a member that collides is killed
    at once and reported. *)
Definition spritecollide_step (r : Rect) (acc : list nat * Game) (id : nat)
  : list nat * Game :=
  if Rect.colliderect r (rect_of (snd acc) id)
  then (fst acc ++ [id], kill id (snd acc))
  else acc.

Definition spritecollide (r : Rect) (n : GroupName) (g : Game)
  : list nat * Game :=
  fold_left (spritecollide_step r) (members n g) ([], g).

(** [pg.sprite.groupcollide(enemies, shots, 1, 1)]: for each enemy in turn
    the shots it collides with are killed; an enemy with at least one such
    shot is killed and becomes a key of the result. *)
Definition groupcollide_step (acc : list (nat * list nat) * Game) (a : nat)
  : list (nat * list nat) * Game :=
  let '(collision, g1) := spritecollide (rect_of (snd acc) a) Shots (snd acc) in
  match collision with
  | [] => (fst acc, g1)
  | _ :: _ => (fst acc ++ [(a, collision)], kill a g1)
  end.

Definition groupcollide (g : Game) : list (nat * list nat) * Game :=
  fold_left groupcollide_step (enemies g) ([], g).

(** Body of the loop at line 377, for one enemy of the result. *)
Definition player_enemy_body (g : Game) (enemy : nat) : Game :=
  let g := new_Explosion A (rect_of g enemy) g in
  let g := new_Explosion A (rect_of g player) g in
  let g := set_SCORE g (SCORE g + 1) in
  kill player g.

(** Body of the loop at line 386. *)
Definition shot_enemy_body (g : Game) (enemy : nat) : Game :=
  let g := new_Explosion A (rect_of g enemy) g in
  set_SCORE g (SCORE g + 1).

(** Body of the loop at line 393. *)
Definition player_bullet_body (g : Game) (enemy_bullet : nat) : Game :=
  let g := new_Explosion A (rect_of g player) g in
  kill player g.

Definition check_player_enemies (g : Game) : list nat * Game :=
  let '(crashed, g1) := spritecollide (rect_of g player) Enemies g in
  (crashed, fold_left player_enemy_body crashed g1).

Definition check_shots_enemies (g : Game) : list nat * Game :=
  let '(crashed, g1) := groupcollide g in
  (map fst crashed, fold_left shot_enemy_body (map fst crashed) g1).

Definition check_player_bullets (g : Game) : list nat * Game :=
  let '(crashed, g1) := spritecollide (rect_of g player) EnemyBullets g in
  (crashed, fold_left player_bullet_body crashed g1).

(** The three checks in the order of the source. *)
Definition collisions (g : Game) : Game :=
  let g1 := snd (check_player_enemies g) in
  let g2 := snd (check_shots_enemies g1) in
  snd (check_player_bullets g2).

(** *** [all.draw(screen)] of [RenderUpdates] *)

Definition blit_rect (s : Sprite) : Rect :=
  Rect.blit (image_size A (sprite_image s)) (sprite_rect s).

Definition dirty_of (old : option Rect) (new : Rect) : list Rect :=
  match old with
  | Some r =>
      if Rect.nonzero r
      then if Rect.colliderect new r then [Rect.union new r] else [new; r]
      else [new]
  | None => [new]
  end.

Definition draw_step (g : Game) (acc : list Rect * list (nat * option Rect))
           (e : nat * option Rect) : list Rect * list (nat * option Rect) :=
  let new := match heap g !! fst e with
             | Some s => blit_rect s
             | None => mkRect 0 0 0 0
             end in
  (fst acc ++ dirty_of (snd e) new, snd acc ++ [(fst e, Some new)]).

Definition all_draw (g : Game) : list Rect * Game :=
  let '(dirty, spritedict) :=
    fold_left (draw_step g) (all g) (lostsprites g, []) in
  (dirty,
   mkGame (heap g) (enemies g) (shots g) (enemy_bullets g) spritedict []
          (lastenemy g) (SCORE g) (enemyreload g) (drawn g)).

(** *** One pass of the loop body (lines 347-401), after the event queue
    has been read.  [before_collisions] is the state the collision checks
    start from, [before_draw] the one the scene is drawn from. *)

Definition before_collisions (i : Input) (g : Game) : Game :=
  shoot_enemy_bullets (create_enemy (handle_input i (all_update g))).

Definition before_draw (i : Input) (g : Game) : Game :=
  collisions (before_collisions i g).

(** The state after the pass, and the list handed to
    [pg.display.update]. *)
Definition tick (i : Input) (g : Game) : Game * list Rect :=
  let '(dirty, g') := all_draw (before_draw i g) in (g', dirty).

(** *** The session: set-up (lines 311-321) and the loop, one input per
    pass; the loop ends when the player is dead or on a quit event. *)

Definition start : Game :=
  let g := mkGame [] [] [] [] [] [] None 0 ENEMY_RELOAD 0 in
  let g := new_Player A g in
  let g := new_Enemy A random g in
  if font_available A then new_Score A g else g.

Fixpoint run (inputs : list Input) (g : Game) : Game :=
  match inputs with
  | [] => g
  | i :: rest =>
      if negb (alive player g) then g
      else if quit i then g
      else run rest (fst (tick i g))
  end.

End Loop.

(** ** [render_background] (lines 232-240)

    [range(0, stop, step)]: Python raises [ValueError] for a step of zero
    ([None]); a positive step counts up from 0 while below [stop]; with a
    negative step and a start of 0 nothing is below a non-negative stop. *)
Definition py_range (stop step : Z) : option (list Z) :=
  if step =? 0 then None
  else if step <? 0
       then Some (if stop <? 0
                  then (fun k => Z.of_nat k * step)
                         <$> seq 0 (Z.to_nat ((stop + step + 1) / step))
                  else [])
       else Some ((fun k => Z.of_nat k * step)
                    <$> seq 0 (Z.to_nat ((stop + step - 1) / step))).

(** The destinations of the tile blits, in order, for a tile of size
    [tile]; [None] when a [range] raises.  The inner range is built once per
    column, so a tile without height raises only if there is a column. *)
Definition render_background (tile : Z * Z) : option (list (Z * Z)) :=
  xs ← py_range (rw SCREENRECT) (fst tile);
  match xs with
  | [] => Some []
  | _ :: _ =>
      ys ← py_range (rh SCREENRECT) (snd tile);
      Some (x ← xs; (fun y => (x, y)) <$> ys)
  end.

(** * Notions used in the statements *)

(** The rectangle lies between the left and the right edge of the
    play-field. *)
Definition in_bounds (r : Rect) : Prop :=
  Rect.left SCREENRECT <= Rect.left r /\ Rect.right r <= Rect.right SCREENRECT.

(** The class of an object. *)
Inductive Kind := KPlayer | KEnemy | KExplosion | KShot | KEnemyBullet | KScore.

#[global] Instance Kind_eq_dec : EqDecision Kind.
Proof. solve_decision. Defined.

Definition kind (s : Sprite) : Kind :=
  match s with
  | APlayer _ => KPlayer
  | AnEnemy _ => KEnemy
  | AnExplosion _ => KExplosion
  | AShot _ => KShot
  | AnEnemyBullet _ => KEnemyBullet
  | AScore _ => KScore
  end.

Definition kind_at (g : Game) (id : nat) : option Kind := kind <$> heap g !! id.

(** The enemy object created last, whether or not it is still in a group:
    the greatest identity of class [Enemy]. *)
Fixpoint newest_enemy_from (n : nat) (h : list Sprite) : option nat :=
  match h with
  | [] => None
  | s :: h' =>
      match newest_enemy_from (S n) h' with
      | Some j => Some j
      | None => match s with AnEnemy _ => Some n | _ => None end
      end
  end.

Definition newest_enemy (g : Game) : option nat := newest_enemy_from 0 (heap g).

(** States as [main] builds them: the first object is the player, the
    groups [enemies], [shots] and [enemy_bullets] hold objects of their class,
    each once, and [lastenemy] holds the enemy created last as long as it is
    in [enemies]. *)
Definition wf (g : Game) : Prop :=
  kind_at g player = Some KPlayer
  /\ Forall (fun id => kind_at g id = Some KEnemy) (enemies g)
  /\ Forall (fun id => kind_at g id = Some KShot) (shots g)
  /\ Forall (fun id => kind_at g id = Some KEnemyBullet) (enemy_bullets g)
  /\ NoDup (enemies g)
  /\ lastenemy g = (e ← newest_enemy g; if decide (e ∈ enemies g) then Some e else None).

#[global] Instance wf_dec g : Decision (wf g).
Proof. unfold wf. apply _. Defined.

(** Killing the sprites of a list, one after the other. *)
Definition kill_all (ids : list nat) (g : Game) : Game :=
  fold_left (fun g id => kill id g) ids g.

Definition remove_ids (ids : list nat) (l : list nat) : list nat :=
  filter (fun j => j ∉ ids) l.

(** The passes of the loop body for a list of inputs, one after the other. *)
Definition ticks (A : Assets) (random : nat -> Q) (inputs : list Input)
           (g : Game) : Game :=
  fold_left (fun g i => fst (tick A random i g)) inputs g.

(** The members of [l] whose rectangle overlaps [r], in the order of [l]. *)
Definition hits (r : Rect) (g : Game) (l : list nat) : list nat :=
  filter (fun id => Rect.colliderect r (rect_of g id)) l.

(** The objects of [g] are still there, unchanged, in [g'], and the objects
    allocated since are no shots. *)
Definition extends (g g' : Game) : Prop :=
  exists l, heap g' = heap g ++ l /\ Forall (fun s => kind s <> KShot) l.

(** The number of shots created so far. *)
Definition shots_ever (g : Game) : nat :=
  length (filter (fun k => k = KShot) (kind <$> heap g)).

(** The player object satisfies [P]. *)
Definition player_is (P : Player.t -> Prop) (g : Game) : Prop :=
  exists p, heap g !! player = Some (APlayer p) /\ P p.

(** Image sizes and random streams used to evaluate the model on concrete
    sessions. *)
Definition demo_assets : Assets :=
  mkAssets (fun _ => (64, 40)) (48, 30) (32, 32) (8, 16) (8, 8)
           (fun _ => (70, 14)) true.

Definition no_keys : Input := mkInput false false false false.
Definition fire_key : Input := mkInput false false false true.

(** [run] as a pass count: the session never runs more passes than it has
    inputs. *)
Fixpoint passes (A : Assets) (random : nat -> Q) (inputs : list Input)
         (g : Game) : list Input :=
  match inputs with
  | [] => []
  | i :: rest =>
      if negb (alive player g) then []
      else if quit i then []
      else i :: passes A random rest (fst (tick A random i g))
  end.

(** An animation step as the specification words it: the counter goes up by
    one and the image index is [(counter // cadence) mod frameCount]. *)
Definition animates (counter counter' image' cadence frameCount : Z) : Prop :=
  counter' = counter + 1 /\ image' = (counter' / cadence) mod frameCount.

Definition fresh_explosion : Explosion.t :=
  Explosion.init (32, 32) (mkRect 100 100 48 30).

(** A random stream for concrete sessions: the first enemy appears at the
    left edge, a second one is spawned on the thirteenth pass in the middle,
    and no enemy bullet is ever shot. *)
Definition demo_random (n : nat) : Q :=
  match n with
  | 0%nat => 0
  | 13%nat => 0
  | _ => 1 # 2
  end.

(** The session after two separate presses of the fire key: two shots are
    in flight and the key is up. *)
Definition two_shots_up : Game :=
  ticks demo_assets demo_random [fire_key; no_keys; fire_key; no_keys]
        (start demo_assets demo_random).

(** The state in which line 373 decides about an enemy bullet. *)
Definition before_bullets (A : Assets) (random : nat -> Q) (i : Input)
           (g : Game) : Game :=
  create_enemy A random (handle_input A i (all_update A g)).

(** A session in which the enemy created last has been shot down while an
    older enemy is still alive: the player fires on the fifteenth pass at the
    enemy spawned on the thirteenth and hits it on the forty-first. *)
Definition newest_shot_down : Game :=
  ticks demo_assets demo_random
        (replicate 14 no_keys ++ [fire_key] ++ replicate 26 no_keys)
        (start demo_assets demo_random).

(** The explosions the loop at line 377 creates for the enemies of a list:
    for each one, one at the enemy and one at the player. *)
Definition explosions_for (A : Assets) (g : Game) (l : list nat) : list Sprite :=
  flat_map (fun e =>
              [AnExplosion (Explosion.init (explosion_size A) (rect_of g e));
               AnExplosion (Explosion.init (explosion_size A) (rect_of g player))])
           l.

(** A session without any key pressed, in which the first enemy comes down
    on the player: the state the collision checks of the 89th pass start
    from. *)
Definition enemy_on_player : Game :=
  before_collisions demo_assets (fun _ => 1 # 2)%Q no_keys
    (ticks demo_assets (fun _ => 1 # 2)%Q (replicate 88 no_keys)
           (start demo_assets (fun _ => 1 # 2)%Q)).

(** What [groupcollide(enemies, shots, 1, 1)] reports, as a function of the
    rectangles and of the two member lists: the enemies are taken in turn,
    each one with the shots that are left and overlap it; these shots are
    gone for the enemies after it. *)
Fixpoint shot_hits (rect : nat -> Rect) (es ss : list nat)
  : list (nat * list nat) :=
  match es with
  | [] => []
  | e :: es' =>
      let col := filter (fun s => Rect.colliderect (rect e) (rect s)) ss in
      match col with
      | [] => shot_hits rect es' ss
      | _ :: _ => (e, col) :: shot_hits rect es' (remove_ids col ss)
      end
  end.

(** The sprites [groupcollide] kills, in the order it kills them. *)
Definition killed_by (H : list (nat * list nat)) : list nat :=
  flat_map (fun p => snd p ++ [fst p]) H.



(** As [enemy_on_player], but the player fires on that very pass: the new
    shot overlaps the enemy that overlaps the player. *)
Definition enemy_on_player_and_shot : Game :=
  before_collisions demo_assets (fun _ => 1 # 2)%Q fire_key
    (ticks demo_assets (fun _ => 1 # 2)%Q (replicate 88 no_keys)
           (start demo_assets (fun _ => 1 # 2)%Q)).

(** The rectangle [all.draw] blits a member at and records for it. *)
Definition drawn_rect (A : Assets) (g : Game) (id : nat) : Rect :=
  match heap g !! id with
  | Some s => blit_rect A s
  | None => mkRect 0 0 0 0
  end.

(** What is on show: the members of the render group, each with its
    rectangle and its image. *)
Definition scene (g : Game) : list (nat * option (Rect * Image)) :=
  map (fun e => (fst e, (fun s => (sprite_rect s, sprite_image s)) <$> heap g !! fst e))
      (all g).

(** A random stream that puts the first enemy at the left edge and never
    spawns another one nor a bullet; and the session, without any key
    pressed, after that enemy has left the screen at the bottom: only the
    player and the score line are left. *)
Definition left_edge_random (n : nat) : Q :=
  match n with
  | 0%nat => 0
  | _ => 1 # 2
  end.

Definition quiet_scene : Game :=
  ticks demo_assets left_edge_random (replicate 103 no_keys)
        (start demo_assets left_edge_random).

(** The object exists and is in no group. *)
Definition gone (id : nat) (g : Game) : Prop :=
  alive id g = false /\ (id < length (heap g))%nat.

(** A sprite after [n] calls of its [update] method. *)
Definition updates {T : Type} (update : T -> T * bool) (n : nat) (x : T) : T :=
  Nat.iter n (fun y => fst (update y)) x.

(** What a member of the render group shows: its rectangle and its
    image. *)
Definition shown (g : Game) (id : nat) : option (Rect * Image) :=
  (fun s => (sprite_rect s, sprite_image s)) <$> heap g !! id.

#[global] Instance Image_eq_dec : EqDecision Image.
Proof. solve_decision. Defined.

(** Between two draws the render group loses members and gains new ones; no
    member gets listed twice, a member that stays keeps the rectangle
    recorded for it, and a new one has none. *)
Definition kept_all (g g' : Game) : Prop :=
  (NoDup (all_ids g) -> NoDup (all_ids g'))
  /\ Forall (fun e => e ∈ all g \/ snd e = None) (all g').

(** The session that leads to [quiet_scene], one pass earlier. *)
Definition quiet_before : Game :=
  ticks demo_assets left_edge_random (replicate 102 no_keys)
        (start demo_assets left_edge_random).

(** A session with a shot image tall enough to lie over two enemies: both
    enemies come down the column of the player's gun, thirteen passes apart,
    and the player fires on the 82nd pass.  The state the collision checks of
    that pass start from. *)
Definition tall_shot_assets : Assets :=
  mkAssets (fun _ => (64, 40)) (48, 30) (32, 32) (8, 100) (8, 8)
           (fun _ => (70, 14)) true.

Definition column_random (n : nat) : Q :=
  match n with
  | 13%nat => 0
  | _ => 15 # 32
  end.

Definition two_enemies_one_shot : Game :=
  before_collisions tall_shot_assets column_random fire_key
    (ticks tall_shot_assets column_random (replicate 81 no_keys)
           (start tall_shot_assets column_random)).

(** * Properties *)

(** ** The player's move *)

Lemma clamp1_inside x w ax aw :
  w <= aw -> ax <= Rect.clamp1 x w ax aw /\ Rect.clamp1 x w ax aw + w <= ax + aw.
Proof.
  intros Hw. unfold Rect.clamp1.
  destruct (Z.leb_spec aw w) as [Hge|Hlt].
  - assert (w = aw) as -> by lia. lia.
  - destruct (Z.ltb_spec x ax); [lia|].
    destruct (Z.ltb_spec (ax + aw) (x + w)); lia.
Qed.

Lemma move_keeps_size p d :
  rw (Player.rect (Player.move p d)) = rw (Player.rect p)
  /\ rh (Player.rect (Player.move p d)) = rh (Player.rect p).
Proof. split; reflexivity. Qed.

Lemma move_in_bounds p d :
  rw (Player.rect p) <= 640 -> in_bounds (Player.rect (Player.move p d)).
Proof.
  intros Hw. unfold in_bounds, Rect.left, Rect.right. simpl.
  pose proof (clamp1_inside (rx (Player.rect p) + d * Player.speed)
                            (rw (Player.rect p)) 0 640 Hw).
  lia.
Qed.

(** C7. After a move the top edge of the player's rectangle is the original
    top minus [(left // 24) mod 2], with [left] the left edge after the move
    (floor division and modulo on integers); the original top is kept, so the
    offset depends on the horizontal position only. *)
Theorem C7_bounce_offset p d :
  let p' := Player.move p d in
  Rect.top (Player.rect p')
  = Player.origtop p - (Rect.left (Player.rect p') / 24) mod 2
  /\ Player.origtop p' = Player.origtop p
  /\ (Rect.top (Player.rect p') = Player.origtop p
      \/ Rect.top (Player.rect p') = Player.origtop p - 1).
Proof.
  cbn zeta. split; [reflexivity|]. split; [reflexivity|].
  unfold Rect.top. simpl.
  match goal with
  | |- context [?a mod 2] => pose proof (Z.mod_pos_bound a 2)
  end.
  lia.
Qed.

(** ** Lists and folds *)

Lemma fold_left_inv {S X : Type} (P : S -> Prop) (f : S -> X -> S) l s :
  P s -> (forall s x, P s -> P (f s x)) -> P (fold_left f l s).
Proof.
  intros Hs Hf. revert s Hs.
  induction l as [|x l IH]; intros s Hs; simpl; [exact Hs|].
  apply IH, Hf, Hs.
Qed.

Lemma remove_id_notin id (l : list nat) : id ∉ l -> remove_id id l = l.
Proof.
  intros Hn. unfold remove_id. induction l as [|a l IH]; [reflexivity|].
  rewrite filter_cons. apply not_elem_of_cons in Hn as [Hne Hn].
  rewrite decide_True by congruence. f_equal. apply IH, Hn.
Qed.

Lemma remove_ids_nil (l : list nat) : remove_ids [] l = l.
Proof.
  unfold remove_ids. induction l as [|a l IH]; [reflexivity|].
  rewrite filter_cons, decide_True by apply not_elem_of_nil.
  f_equal. exact IH.
Qed.

Lemma remove_ids_cons a ids (l : list nat) :
  remove_ids ids (remove_id a l) = remove_ids (a :: ids) l.
Proof.
  unfold remove_ids, remove_id. induction l as [|b l IH]; [reflexivity|].
  rewrite !filter_cons.
  destruct (decide (b <> a)) as [Hne|Heq].
  - rewrite filter_cons. destruct (decide (b ∉ ids)) as [Hn|Hi].
    + rewrite decide_True by (rewrite not_elem_of_cons; auto). f_equal. exact IH.
    + rewrite decide_False; [exact IH|].
      intros Hc. apply Hi. intros Hb. apply Hc. now right.
  - rewrite decide_False; [exact IH|].
    intros Hc. apply Hc. apply dec_stable in Heq. subst. now left.
Qed.

Lemma remove_ids_app ids1 ids2 (l : list nat) :
  remove_ids ids2 (remove_ids ids1 l) = remove_ids (ids1 ++ ids2) l.
Proof.
  unfold remove_ids. induction l as [|b l IH]; [reflexivity|].
  rewrite !filter_cons.
  destruct (decide (b ∉ ids1)) as [H1|H1].
  - rewrite filter_cons. destruct (decide (b ∉ ids2)) as [H2|H2].
    + rewrite decide_True by (rewrite elem_of_app; tauto). f_equal. exact IH.
    + rewrite decide_False; [exact IH|]. rewrite elem_of_app. tauto.
  - rewrite decide_False; [exact IH|]. rewrite elem_of_app. tauto.
Qed.

Lemma remove_ids_disjoint ids (l : list nat) :
  (forall j, j ∈ ids -> j ∉ l) -> remove_ids ids l = l.
Proof.
  intros Hd. unfold remove_ids. induction l as [|b l IH]; [reflexivity|].
  rewrite filter_cons, decide_True.
  - f_equal. apply IH. intros j Hj Hl. apply (Hd j Hj). now right.
  - intros Hb. apply (Hd b Hb). now left.
Qed.

Lemma elem_of_remove_ids j ids (l : list nat) :
  j ∈ remove_ids ids l <-> j ∈ l /\ j ∉ ids.
Proof. unfold remove_ids. rewrite list_elem_of_filter. tauto. Qed.

(** Removing the members of a duplicate-free sublist shortens the list by
    the length of the sublist. *)
Lemma remove_ids_length (k l : list nat) :
  NoDup l -> k `sublist_of` l ->
  (length (remove_ids k l) + length k = length l)%nat.
Proof.
  intros Hnd Hsub. revert k Hsub.
  induction Hnd as [|a l Ha Hnd IH]; intros k Hsub.
  - apply sublist_nil_r in Hsub. subst. reflexivity.
  - unfold remove_ids. rewrite filter_cons.
    apply sublist_cons_r in Hsub as [Hsub|(k' & -> & Hsub)].
    + rewrite decide_True.
      * simpl. f_equal. apply IH, Hsub.
      * intros Hk. apply Ha. eapply elem_of_sublist; eassumption.
    + rewrite decide_False by (intros Hc; apply Hc; now left).
      fold (remove_ids (a :: k') l). rewrite <- remove_ids_cons.
      rewrite (remove_id_notin a l Ha). simpl.
      rewrite <- (IH k' Hsub). lia.
Qed.

(** ** Killing sprites *)

Lemma kill_all_frame ids g :
  heap (kill_all ids g) = heap g
  /\ SCORE (kill_all ids g) = SCORE g
  /\ enemyreload (kill_all ids g) = enemyreload g
  /\ drawn (kill_all ids g) = drawn g.
Proof.
  unfold kill_all. apply (fold_left_inv (fun g' =>
    heap g' = heap g /\ SCORE g' = SCORE g
    /\ enemyreload g' = enemyreload g /\ drawn g' = drawn g)); [tauto|].
  intros s x H. exact H.
Qed.

Lemma kill_all_groups ids g :
  enemies (kill_all ids g) = remove_ids ids (enemies g)
  /\ shots (kill_all ids g) = remove_ids ids (shots g)
  /\ enemy_bullets (kill_all ids g) = remove_ids ids (enemy_bullets g).
Proof.
  revert g. induction ids as [|a ids IH]; intros g.
  - simpl. now rewrite !remove_ids_nil.
  - simpl. destruct (IH (kill a g)) as (He & Hs & Hb).
    unfold kill_all in *. rewrite He, Hs, Hb. simpl.
    now rewrite !remove_ids_cons.
Qed.

Lemma kill_all_app ids1 ids2 g :
  kill_all (ids1 ++ ids2) g = kill_all ids2 (kill_all ids1 g).
Proof. unfold kill_all. apply fold_left_app. Qed.

Lemma rect_of_heap g g' id : heap g' = heap g -> rect_of g' id = rect_of g id.
Proof. intros H. unfold rect_of. now rewrite H. Qed.

(** ** [spritecollide] *)

Lemma hits_heap r g g' l : heap g' = heap g -> hits r g' l = hits r g l.
Proof.
  intros H. unfold hits. apply list_filter_iff. intros id.
  now rewrite (rect_of_heap g g' id H).
Qed.

Lemma hits_sublist r g l : hits r g l `sublist_of` l.
Proof. apply sublist_filter. Qed.

Lemma spritecollide_fold r g l acc g' :
  heap g' = heap g ->
  fold_left (spritecollide_step r) l (acc, g')
  = (acc ++ hits r g l, kill_all (hits r g l) g').
Proof.
  revert acc g'. induction l as [|id l IH]; intros acc g' Hh; simpl.
  - now rewrite app_nil_r.
  - unfold spritecollide_step at 2. simpl.
    rewrite (rect_of_heap g g' id Hh). unfold hits. rewrite filter_cons.
    destruct (Rect.colliderect r (rect_of g id)) eqn:E.
    + rewrite decide_True by exact I.
      fold (hits r g l). rewrite IH by exact Hh.
      now rewrite <- app_assoc.
    + rewrite decide_False by (intros []).
      fold (hits r g l). now apply IH.
Qed.

(** [spritecollide] reports the members that overlap the rectangle and has
    killed exactly them. *)
Lemma spritecollide_spec r n g :
  spritecollide r n g
  = (hits r g (members n g), kill_all (hits r g (members n g)) g).
Proof. unfold spritecollide. now rewrite (spritecollide_fold r g). Qed.

(** ** Well-formed states *)

Lemma newest_app n h s :
  newest_enemy_from n (h ++ [s])
  = match s with
    | AnEnemy _ => Some (n + length h)%nat
    | _ => newest_enemy_from n h
    end.
Proof.
  revert n. induction h as [|a h IH]; intros n; simpl.
  - rewrite Nat.add_0_r. now destruct s.
  - rewrite IH. destruct s; try reflexivity.
    f_equal. lia.
Qed.

Lemma newest_insert n h i s s' :
  h !! i = Some s -> kind s' = kind s ->
  newest_enemy_from n (<[i := s']> h) = newest_enemy_from n h.
Proof.
  revert n i. induction h as [|a h IH]; intros n i Hi Hk; [reflexivity|].
  destruct i as [|i]; simpl in *.
  - injection Hi as ->.
    destruct (newest_enemy_from (S n) h); [reflexivity|].
    destruct s, s'; simpl in Hk; congruence.
  - now rewrite (IH (S n) i Hi Hk).
Qed.

Lemma kind_at_insert g id s s' j :
  heap g !! id = Some s -> kind s' = kind s ->
  kind_at (set_heap g (<[id := s']> (heap g))) j = kind_at g j.
Proof.
  intros Hs Hk. unfold kind_at. simpl.
  destruct (decide (id = j)) as [->|Hne].
  - rewrite list_lookup_insert_eq by (eapply lookup_lt_Some; eassumption).
    rewrite Hs. simpl. now rewrite Hk.
  - now rewrite list_lookup_insert_ne.
Qed.

Lemma kind_at_app h g g' s j k :
  heap g = h -> heap g' = h ++ [s] ->
  kind_at g j = Some k -> kind_at g' j = Some k.
Proof.
  intros Hg Hg' Hj. unfold kind_at in *. rewrite Hg', Hg in *.
  rewrite lookup_app_l; [exact Hj|].
  destruct (h !! j) eqn:E; [|discriminate].
  eapply lookup_lt_Some; eassumption.
Qed.

Lemma kind_at_new g g' s :
  heap g' = heap g ++ [s] -> kind_at g' (length (heap g)) = Some (kind s).
Proof.
  intros Hg'. unfold kind_at. rewrite Hg'.
  now rewrite list_lookup_middle.
Qed.

Lemma kind_at_lt g j k : kind_at g j = Some k -> (j < length (heap g))%nat.
Proof.
  unfold kind_at. destruct (heap g !! j) eqn:E; [|discriminate].
  intros _. eapply lookup_lt_Some; eassumption.
Qed.

(** Well-formedness looks at the classes of the objects and at the groups
    only. *)
Lemma wf_same g g' :
  wf g -> kind <$> heap g' = kind <$> heap g ->
  newest_enemy g' = newest_enemy g ->
  enemies g' = enemies g -> shots g' = shots g ->
  enemy_bullets g' = enemy_bullets g -> lastenemy g' = lastenemy g ->
  wf g'.
Proof.
  intros (Hp & He & Hs & Hb & Hnd & Hl) Hk Hn HE HS HB HL.
  assert (forall j, kind_at g' j = kind_at g j) as Hkj.
  { intros j. unfold kind_at. rewrite <- !list_lookup_fmap. now rewrite Hk. }
  unfold wf. rewrite HE, HS, HB, HL, Hn, Hkj.
  repeat split; try assumption.
  all: match goal with
       | H : Forall _ ?l |- Forall _ ?l =>
           eapply Forall_impl; [exact H|]; intros j Hj; simpl in *;
           rewrite Hkj; exact Hj
       end.
Qed.

Lemma wf_frame g g' :
  wf g -> heap g' = heap g ->
  enemies g' = enemies g -> shots g' = shots g ->
  enemy_bullets g' = enemy_bullets g -> lastenemy g' = lastenemy g ->
  wf g'.
Proof.
  intros Hw Hh. apply wf_same; [exact Hw| |]; unfold newest_enemy; now rewrite Hh.
Qed.

Lemma wf_insert g id s s' :
  wf g -> heap g !! id = Some s -> kind s' = kind s ->
  wf (set_heap g (<[id := s']> (heap g))).
Proof.
  intros Hw Hs Hk. apply (wf_same g); try reflexivity; [exact Hw| |].
  - simpl. apply list_eq. intros j. rewrite !list_lookup_fmap.
    apply (kind_at_insert g id s s' j Hs Hk).
  - unfold newest_enemy. simpl. eapply newest_insert; eassumption.
Qed.

Lemma Forall_remove_id (P : nat -> Prop) id l :
  Forall P l -> Forall P (remove_id id l).
Proof.
  rewrite !Forall_forall. intros H j Hj.
  apply list_elem_of_filter in Hj as [_ Hj]. now apply H.
Qed.

Lemma wf_kill id g : wf g -> wf (kill id g).
Proof.
  intros (Hp & He & Hs & Hb & Hnd & Hl). unfold wf, kill, kind_at, newest_enemy.
  simpl. fold (kind_at g). fold (newest_enemy g).
  repeat split; try (now apply Forall_remove_id); [exact Hp| |].
  - now apply NoDup_filter.
  - rewrite Hl. destruct (newest_enemy g) as [e|]; simpl; [|reflexivity].
    destruct (decide (e ∈ enemies g)) as [Hin|Hout].
    + destruct (decide (e = id)) as [->|Hne].
      * rewrite decide_False; [reflexivity|].
        unfold remove_id. rewrite list_elem_of_filter. tauto.
      * rewrite decide_True; [reflexivity|].
        unfold remove_id. rewrite list_elem_of_filter. tauto.
    + rewrite decide_False; [reflexivity|].
      unfold remove_id. rewrite list_elem_of_filter. tauto.
Qed.

Lemma wf_kill_all ids g : wf g -> wf (kill_all ids g).
Proof.
  intros Hw. unfold kill_all. apply fold_left_inv; [exact Hw|].
  intros s x Hs. now apply wf_kill.
Qed.

Lemma Forall_kind_app g g' s k l :
  heap g' = heap g ++ [s] ->
  Forall (fun id => kind_at g id = Some k) l ->
  Forall (fun id => kind_at g' id = Some k) l.
Proof.
  intros Hh H. eapply Forall_impl; [exact H|]. intros j Hj. simpl in *.
  eapply kind_at_app; [reflexivity|exact Hh|exact Hj].
Qed.

Lemma Forall_kind_add g g' s l :
  heap g' = heap g ++ [s] ->
  Forall (fun id => kind_at g id = Some (kind s)) l ->
  Forall (fun id => kind_at g' id = Some (kind s)) (add_id (length (heap g)) l).
Proof.
  intros Hh H. unfold add_id. destruct (decide _).
  - eapply Forall_kind_app; eassumption.
  - apply Forall_app. split; [eapply Forall_kind_app; eassumption|].
    apply Forall_singleton. now apply kind_at_new.
Qed.

Lemma elem_of_add_id id l : id ∈ add_id id l.
Proof.
  unfold add_id. destruct (decide _); [assumption|].
  apply elem_of_app. right. now left.
Qed.

Lemma NoDup_add_id id l : NoDup l -> NoDup (add_id id l).
Proof.
  intros H. unfold add_id. destruct (decide _) as [|Hn]; [exact H|].
  apply NoDup_app. repeat split; [exact H| |apply NoDup_singleton].
  intros x Hx Hx'. apply list_elem_of_singleton in Hx'. subst. now apply Hn.
Qed.

(** An object that is not an enemy joins groups other than [enemies]. *)
Lemma wf_new_other g g' s :
  wf g -> heap g' = heap g ++ [s] -> kind s <> KEnemy ->
  enemies g' = enemies g -> lastenemy g' = lastenemy g ->
  Forall (fun id => kind_at g' id = Some KShot) (shots g') ->
  Forall (fun id => kind_at g' id = Some KEnemyBullet) (enemy_bullets g') ->
  wf g'.
Proof.
  intros (Hp & He & Hs & Hb & Hnd & Hl) Hh Hk HE HL HS HB.
  unfold wf. rewrite HE, HL.
  assert (newest_enemy g' = newest_enemy g) as ->.
  { unfold newest_enemy. rewrite Hh, newest_app. destruct s; simpl in Hk; congruence. }
  repeat split; try assumption.
  - eapply kind_at_app; [reflexivity|exact Hh|exact Hp].
  - eapply Forall_kind_app; eassumption.
Qed.

Lemma wf_new_Explosion A r g : wf g -> wf (new_Explosion A r g).
Proof.
  intros Hw. pose proof Hw as (Hp & He & Hs & Hb & Hnd & Hl).
  eapply wf_new_other; try exact Hw; try reflexivity; [discriminate| |].
  - eapply Forall_kind_app; [reflexivity|exact Hs].
  - eapply Forall_kind_app; [reflexivity|exact Hb].
Qed.

Lemma wf_new_Shot A pos g : wf g -> wf (new_Shot A pos g).
Proof.
  intros Hw. pose proof Hw as (Hp & He & Hs & Hb & Hnd & Hl).
  eapply wf_new_other; try exact Hw; try reflexivity; [discriminate| |].
  - simpl. apply (Forall_kind_add g _ (AShot (Shot.init (shot_size A) pos)));
      [reflexivity|exact Hs].
  - eapply Forall_kind_app; [reflexivity|exact Hb].
Qed.

Lemma wf_new_EnemyBullet A r g : wf g -> wf (new_EnemyBullet A r g).
Proof.
  intros Hw. pose proof Hw as (Hp & He & Hs & Hb & Hnd & Hl).
  eapply wf_new_other; try exact Hw; try reflexivity; [discriminate| |].
  - eapply Forall_kind_app; [reflexivity|exact Hs].
  - simpl. apply (Forall_kind_add g _
      (AnEnemyBullet (EnemyBullet.init (enemy_bullet_size A) r)));
      [reflexivity|exact Hb].
Qed.

Lemma wf_new_Enemy A random g : wf g -> wf (new_Enemy A random g).
Proof.
  intros (Hp & He & Hs & Hb & Hnd & Hl).
  set (s := AnEnemy (Enemy.init (enemy_size A)
                       (scaled (random (drawn g)) (rw SCREENRECT)))).
  assert (heap (new_Enemy A random g) = heap g ++ [s]) as Hh by reflexivity.
  unfold wf. repeat split.
  - eapply kind_at_app; [reflexivity|exact Hh|exact Hp].
  - apply (Forall_kind_add g _ s _ Hh He).
  - eapply Forall_kind_app; [exact Hh|exact Hs].
  - eapply Forall_kind_app; [exact Hh|exact Hb].
  - simpl. now apply NoDup_add_id.
  - unfold newest_enemy. rewrite Hh, newest_app. simpl.
    rewrite decide_True by apply elem_of_add_id. reflexivity.
Qed.

Lemma update_sprite_kind A score s :
  kind (fst (update_sprite A score s)) = kind s.
Proof.
  destruct s as [p|e|x|s|b|c]; simpl; try reflexivity.
Qed.

Lemma wf_update_one A g id : wf g -> wf (update_one A g id).
Proof.
  intros Hw. unfold update_one. destruct (heap g !! id) as [s|] eqn:Hs; [|exact Hw].
  pose proof (update_sprite_kind A (SCORE g) s) as Hk.
  destruct (update_sprite A (SCORE g) s) as [s' k]. simpl in Hk.
  pose proof (wf_insert g id s s' Hw Hs Hk) as Hw'.
  destruct k; [now apply wf_kill|exact Hw'].
Qed.

Lemma wf_all_update A g : wf g -> wf (all_update A g).
Proof.
  intros Hw. unfold all_update. apply fold_left_inv; [exact Hw|].
  intros s x Hs. now apply wf_update_one.
Qed.

Lemma wf_player g : wf g -> exists p, heap g !! player = Some (APlayer p).
Proof.
  intros (Hp & _). unfold kind_at in Hp.
  destruct (heap g !! player) as [[p| | | | |]|]; try discriminate.
  now exists p.
Qed.

Lemma wf_handle_input A i g : wf g -> wf (handle_input A i g).
Proof.
  intros Hw. unfold handle_input.
  destruct (wf_player g Hw) as [p Hp]. rewrite Hp.
  set (p1 := Player.move p (direction i)).
  pose proof (wf_insert g player (APlayer p) (APlayer p1) Hw Hp eq_refl) as Hw1.
  set (g1 := set_heap g (<[player:=APlayer p1]> (heap g))) in *.
  set (g2 := if fires _ _ _ then _ else _).
  assert (wf g2) as Hw2.
  { unfold g2. destruct (fires _ _ _); [now apply wf_new_Shot|exact Hw1]. }
  destruct (wf_player g2 Hw2) as [p2 Hp2].
  now apply (wf_insert g2 player (APlayer p2)).
Qed.

Lemma wf_create_enemy A random g : wf g -> wf (create_enemy A random g).
Proof.
  intros Hw. unfold create_enemy.
  destruct (negb (enemyreload g =? 0)).
  - now apply (wf_frame g).
  - simpl. set (g1 := mkGame _ _ _ _ _ _ _ _ _ _).
    assert (wf g1) as Hw1 by now apply (wf_frame g).
    destruct (scaled _ _ =? 0); [|exact Hw1].
    apply (wf_frame (new_Enemy A random g1)); try reflexivity.
    now apply wf_new_Enemy.
Qed.

Lemma wf_shoot_enemy_bullets A random g :
  wf g -> wf (shoot_enemy_bullets A random g).
Proof.
  intros Hw. unfold shoot_enemy_bullets.
  destruct (lastenemy g) as [e|]; [|exact Hw].
  simpl. set (g1 := mkGame _ _ _ _ _ _ _ _ _ _).
  assert (wf g1) as Hw1 by now apply (wf_frame g).
  destruct (scaled _ _ =? 0); [|exact Hw1].
  now apply wf_new_EnemyBullet.
Qed.

Lemma wf_before_collisions A random i g :
  wf g -> wf (before_collisions A random i g).
Proof.
  intros Hw. unfold before_collisions.
  now apply wf_shoot_enemy_bullets, wf_create_enemy, wf_handle_input,
    wf_all_update.
Qed.

Lemma wf_spritecollide r n g : wf g -> wf (snd (spritecollide r n g)).
Proof. intros Hw. rewrite spritecollide_spec. now apply wf_kill_all. Qed.

Lemma wf_groupcollide g : wf g -> wf (snd (groupcollide g)).
Proof.
  intros Hw. unfold groupcollide.
  apply (fold_left_inv (fun acc => wf (snd acc))); [exact Hw|].
  intros [c g'] a Hg'. unfold groupcollide_step. simpl in *.
  pose proof (wf_spritecollide (rect_of g' a) Shots g' Hg') as H1.
  destruct (spritecollide (rect_of g' a) Shots g') as [col g1]. simpl in H1.
  destruct col; simpl; [exact H1|now apply wf_kill].
Qed.

Lemma wf_player_enemy_body A g e : wf g -> wf (player_enemy_body A g e).
Proof.
  intros Hw. unfold player_enemy_body. apply wf_kill.
  eapply wf_frame; [|reflexivity..].
  now apply wf_new_Explosion, wf_new_Explosion.
Qed.

Lemma wf_shot_enemy_body A g e : wf g -> wf (shot_enemy_body A g e).
Proof.
  intros Hw. unfold shot_enemy_body.
  eapply wf_frame; [|reflexivity..]. now apply wf_new_Explosion.
Qed.

Lemma wf_player_bullet_body A g b : wf g -> wf (player_bullet_body A g b).
Proof.
  intros Hw. unfold player_bullet_body. now apply wf_kill, wf_new_Explosion.
Qed.

Lemma wf_check_player_enemies A g :
  wf g -> wf (snd (check_player_enemies A g)).
Proof.
  intros Hw. unfold check_player_enemies.
  pose proof (wf_spritecollide (rect_of g player) Enemies g Hw) as H1.
  destruct (spritecollide _ _ _) as [c g1]. simpl in *.
  apply fold_left_inv; [exact H1|]. intros s x. apply wf_player_enemy_body.
Qed.

Lemma wf_check_shots_enemies A g :
  wf g -> wf (snd (check_shots_enemies A g)).
Proof.
  intros Hw. unfold check_shots_enemies.
  pose proof (wf_groupcollide g Hw) as H1.
  destruct (groupcollide g) as [c g1]. simpl in *.
  apply fold_left_inv; [exact H1|]. intros s x. apply wf_shot_enemy_body.
Qed.

Lemma wf_check_player_bullets A g :
  wf g -> wf (snd (check_player_bullets A g)).
Proof.
  intros Hw. unfold check_player_bullets.
  pose proof (wf_spritecollide (rect_of g player) EnemyBullets g Hw) as H1.
  destruct (spritecollide _ _ _) as [c g1]. simpl in *.
  apply fold_left_inv; [exact H1|]. intros s x. apply wf_player_bullet_body.
Qed.

Lemma wf_collisions A g : wf g -> wf (collisions A g).
Proof.
  intros Hw. unfold collisions.
  now apply wf_check_player_bullets, wf_check_shots_enemies,
    wf_check_player_enemies.
Qed.

Lemma all_draw_frame A g :
  let g' := snd (all_draw A g) in
  heap g' = heap g /\ enemies g' = enemies g /\ shots g' = shots g
  /\ enemy_bullets g' = enemy_bullets g /\ lastenemy g' = lastenemy g
  /\ SCORE g' = SCORE g /\ enemyreload g' = enemyreload g
  /\ drawn g' = drawn g /\ lostsprites g' = [].
Proof.
  unfold all_draw. destruct (fold_left _ _ _) as [d sd]. simpl. tauto.
Qed.

Lemma tick_eq A random i g :
  tick A random i g
  = (snd (all_draw A (before_draw A random i g)),
     fst (all_draw A (before_draw A random i g))).
Proof. unfold tick. now destruct (all_draw _ _). Qed.

Lemma wf_tick A random i g : wf g -> wf (fst (tick A random i g)).
Proof.
  intros Hw. rewrite tick_eq. cbn [fst].
  destruct (all_draw_frame A (before_draw A random i g))
    as (Hh & He & Hs & Hb & Hl & _).
  apply (wf_frame (before_draw A random i g)); try assumption.
  unfold before_draw. now apply wf_collisions, wf_before_collisions.
Qed.

Lemma wf_ticks A random inputs g : wf g -> wf (ticks A random inputs g).
Proof.
  intros Hw. unfold ticks. apply fold_left_inv; [exact Hw|].
  intros s x Hs. now apply wf_tick.
Qed.

Lemma wf_start A random : wf (start A random).
Proof.
  unfold start.
  destruct (font_available A); unfold wf, kind_at; simpl;
    repeat split; repeat constructor; apply not_elem_of_nil.
Qed.

(** ** Objects are kept: the later phases only allocate *)

Lemma extends_refl g : extends g g.
Proof. exists []. now rewrite app_nil_r. Qed.

Lemma extends_trans g1 g2 g3 : extends g1 g2 -> extends g2 g3 -> extends g1 g3.
Proof.
  intros (l1 & H1 & F1) (l2 & H2 & F2). exists (l1 ++ l2). split.
  - now rewrite H2, H1, app_assoc.
  - now apply Forall_app.
Qed.

Lemma extends_eq g g' : heap g' = heap g -> extends g g'.
Proof. intros H. exists []. now rewrite app_nil_r. Qed.

Lemma extends_app g g' s :
  heap g' = heap g ++ [s] -> kind s <> KShot -> extends g g'.
Proof. intros H Hk. exists [s]. split; [exact H|]. now apply Forall_singleton. Qed.

Lemma extends_lookup g g' id s :
  extends g g' -> heap g !! id = Some s -> heap g' !! id = Some s.
Proof.
  intros (l & H & _) Hs. rewrite H.
  rewrite lookup_app_l; [exact Hs|]. eapply lookup_lt_Some; eassumption.
Qed.

Lemma extends_shots_ever g g' : extends g g' -> shots_ever g' = shots_ever g.
Proof.
  intros (l & H & F). unfold shots_ever. rewrite H, fmap_app, filter_app, length_app.
  assert (filter (fun k => k = KShot) (kind <$> l) = []) as ->; [|simpl; lia].
  clear H. induction F as [|s l Hs F IH]; [reflexivity|].
  simpl. rewrite filter_cons, decide_False by exact Hs. exact IH.
Qed.

Lemma extends_rect_of g g' id :
  extends g g' -> (id < length (heap g))%nat -> rect_of g' id = rect_of g id.
Proof.
  intros H Hlt. unfold rect_of.
  destruct (lookup_lt_is_Some_2 _ _ Hlt) as [s Hs].
  now rewrite Hs, (extends_lookup g g' id s H Hs).
Qed.

Lemma extends_fold {X} (f : Game -> X -> Game) l g :
  (forall g x, extends g (f g x)) -> extends g (fold_left f l g).
Proof.
  intros Hf. apply (fold_left_inv (extends g)); [apply extends_refl|].
  intros s x Hs. eapply extends_trans; [exact Hs|apply Hf].
Qed.

Lemma extends_create_enemy A random g : extends g (create_enemy A random g).
Proof.
  unfold create_enemy. destruct (negb _); [now apply extends_eq|].
  simpl. destruct (scaled _ _ =? 0); [|now apply extends_eq].
  eapply extends_app; [reflexivity|discriminate].
Qed.

Lemma extends_shoot_enemy_bullets A random g :
  extends g (shoot_enemy_bullets A random g).
Proof.
  unfold shoot_enemy_bullets. destruct (lastenemy g); [|apply extends_refl].
  simpl. destruct (scaled _ _ =? 0); [|now apply extends_eq].
  eapply extends_app; [reflexivity|discriminate].
Qed.

Lemma spritecollide_heap r n g : heap (snd (spritecollide r n g)) = heap g.
Proof. rewrite spritecollide_spec. apply kill_all_frame. Qed.

Lemma groupcollide_frame g :
  heap (snd (groupcollide g)) = heap g
  /\ SCORE (snd (groupcollide g)) = SCORE g
  /\ enemy_bullets (snd (groupcollide g)) ⊆ enemy_bullets g.
Proof.
  unfold groupcollide.
  apply (fold_left_inv (fun acc =>
    heap (snd acc) = heap g /\ SCORE (snd acc) = SCORE g
    /\ enemy_bullets (snd acc) ⊆ enemy_bullets g)); [easy|].
  intros [c g'] a (Hh & Hs & Hb). unfold groupcollide_step. simpl in *.
  rewrite spritecollide_spec.
  set (col := hits _ _ _).
  destruct (kill_all_frame col g') as (Hh' & Hs' & _).
  destruct (kill_all_groups col g') as (_ & _ & Hb').
  assert (enemy_bullets (kill_all col g') ⊆ enemy_bullets g) as Hsub.
  { rewrite Hb'. intros j Hj. apply elem_of_remove_ids in Hj as [Hj _]. now apply Hb. }
  clear Hb'. generalize dependent (kill_all col g'). intros g1 Hh' Hs' Hsub.
  destruct col; simpl.
  - rewrite Hh', Hs'. tauto.
  - rewrite Hh', Hs'. repeat split; try assumption.
    intros j Hj. apply list_elem_of_filter in Hj as [_ Hj]. now apply Hsub.
Qed.

Lemma extends_player_enemy_body A g e : extends g (player_enemy_body A g e).
Proof.
  unfold extends, player_enemy_body. simpl.
  eexists. rewrite <- app_assoc. split; [reflexivity|].
  repeat constructor; discriminate.
Qed.

Lemma extends_shot_enemy_body A g e : extends g (shot_enemy_body A g e).
Proof.
  unfold shot_enemy_body. eapply extends_app; [reflexivity|discriminate].
Qed.

Lemma extends_player_bullet_body A g e : extends g (player_bullet_body A g e).
Proof.
  unfold player_bullet_body. eapply extends_app; [reflexivity|discriminate].
Qed.

Lemma extends_check_player_enemies A g :
  extends g (snd (check_player_enemies A g)).
Proof.
  unfold check_player_enemies.
  pose proof (spritecollide_heap (rect_of g player) Enemies g) as H.
  destruct (spritecollide _ _ _) as [c g1]. simpl in *.
  eapply extends_trans; [apply extends_eq, H|].
  apply extends_fold, extends_player_enemy_body.
Qed.

Lemma extends_check_shots_enemies A g :
  extends g (snd (check_shots_enemies A g)).
Proof.
  unfold check_shots_enemies.
  destruct (groupcollide_frame g) as (H & _).
  destruct (groupcollide g) as [c g1]. simpl in *.
  eapply extends_trans; [apply extends_eq, H|].
  apply extends_fold, extends_shot_enemy_body.
Qed.

Lemma extends_check_player_bullets A g :
  extends g (snd (check_player_bullets A g)).
Proof.
  unfold check_player_bullets.
  pose proof (spritecollide_heap (rect_of g player) EnemyBullets g) as H.
  destruct (spritecollide _ _ _) as [c g1]. simpl in *.
  eapply extends_trans; [apply extends_eq, H|].
  apply extends_fold, extends_player_bullet_body.
Qed.

Lemma extends_collisions A g : extends g (collisions A g).
Proof.
  unfold collisions.
  eapply extends_trans; [apply extends_check_player_enemies|].
  eapply extends_trans; [apply extends_check_shots_enemies|].
  apply extends_check_player_bullets.
Qed.

(** From the player's input on, the pass keeps the objects. *)
Lemma extends_after_input A random i g :
  extends (handle_input A i (all_update A g)) (fst (tick A random i g)).
Proof.
  rewrite tick_eq. cbn [fst].
  destruct (all_draw_frame A (before_draw A random i g)) as (Hh & _).
  eapply extends_trans; [|apply extends_eq, Hh].
  unfold before_draw, before_collisions.
  eapply extends_trans; [apply extends_create_enemy|].
  eapply extends_trans; [apply extends_shoot_enemy_bullets|].
  apply extends_collisions.
Qed.

(** ** The player object through a pass *)

Lemma player_is_update_one A (P : Player.t -> Prop) g id :
  (forall p, P p -> P (Player.update p)) ->
  player_is P g -> player_is P (update_one A g id).
Proof.
  intros HP (p & Hp & HPp). unfold update_one.
  destruct (heap g !! id) as [s|] eqn:Hs; [|now exists p].
  destruct (decide (id = player)) as [->|Hne].
  - rewrite Hp in Hs. injection Hs as <-. simpl.
    exists (Player.update p). split; [|now apply HP].
    apply list_lookup_insert_eq. eapply lookup_lt_Some; eassumption.
  - exists p. split; [|exact HPp].
    destruct (update_sprite A (SCORE g) s) as [s' k].
    assert (heap (set_heap g (<[id:=s']> (heap g))) !! player = Some (APlayer p)) as H.
    { simpl. now rewrite list_lookup_insert_ne. }
    destruct k; exact H.
Qed.

Lemma player_is_all_update A (P : Player.t -> Prop) g :
  (forall p, P p -> P (Player.update p)) ->
  player_is P g -> player_is P (all_update A g).
Proof.
  intros HP H. unfold all_update. apply fold_left_inv; [exact H|].
  intros s x Hs. now apply player_is_update_one.
Qed.

Lemma handle_input_player A i g p :
  heap g !! player = Some (APlayer p) ->
  heap (handle_input A i g) !! player
  = Some (APlayer (Player.set_reloading (Player.move p (direction i)) (K_SPACE i))).
Proof.
  intros Hp. unfold handle_input. rewrite Hp. simpl.
  apply list_lookup_insert_eq.
  destruct (fires _ _ _); simpl; rewrite ?length_app, length_insert;
    apply lookup_lt_Some in Hp; lia.
Qed.

(** The player's input touches no other object. *)
Lemma handle_input_other A i g id s :
  id <> player -> heap g !! id = Some s -> heap (handle_input A i g) !! id = Some s.
Proof.
  intros Hne Hs. unfold handle_input.
  destruct (heap g !! player) as [[p| | | | |]|]; try exact Hs.
  simpl. rewrite list_lookup_insert_ne by congruence.
  destruct (fires _ _ _); simpl.
  - rewrite lookup_app_l by (rewrite length_insert; eapply lookup_lt_Some; eassumption).
    now rewrite list_lookup_insert_ne by congruence.
  - now rewrite list_lookup_insert_ne by congruence.
Qed.

(** The player object after a pass: updated, moved, and with the reload
    lock at the state of the fire key. *)
Lemma tick_player A random i g p :
  heap g !! player = Some (APlayer p) ->
  exists p0,
    heap (all_update A g) !! player = Some (APlayer p0)
    /\ Player.rect p0 = Player.rect p
    /\ Player.reloading p0 = Player.reloading p
    /\ Player.origtop p0 = Player.origtop p
    /\ heap (fst (tick A random i g)) !! player
       = Some (APlayer (Player.set_reloading (Player.move p0 (direction i))
                                             (K_SPACE i))).
Proof.
  intros Hp.
  destruct (player_is_all_update A
    (fun q => Player.rect q = Player.rect p
              /\ Player.reloading q = Player.reloading p
              /\ Player.origtop q = Player.origtop p) g) as (p0 & Hp0 & Hr & Hl & Ho).
  { intros q H. exact H. }
  { exists p. easy. }
  exists p0. repeat split; try assumption.
  eapply extends_lookup; [apply extends_after_input|].
  now apply handle_input_player.
Qed.

Lemma ticks_cons A random i inputs g :
  ticks A random (i :: inputs) g = ticks A random inputs (fst (tick A random i g)).
Proof. reflexivity. Qed.

(** A session is a sequence of passes. *)
Lemma run_ticks A random inputs g :
  run A random inputs g = ticks A random (passes A random inputs g) g.
Proof.
  revert g. induction inputs as [|i rest IH]; intros g; cbn [run passes];
    [reflexivity|].
  destruct (negb (alive player g)); [reflexivity|].
  destruct (quit i); [reflexivity|].
  rewrite ticks_cons. apply IH.
Qed.

Lemma init_in_bounds sz :
  fst sz <= 640 -> in_bounds (Player.rect (Player.init sz)).
Proof.
  intros Hw. unfold in_bounds, Rect.left, Rect.right. simpl.
  change (Rect.centerx SCREENRECT) with 320.
  pose proof (Z.quot_rem' (fst sz) 2) as Hq.
  pose proof (Z.rem_bound_abs (fst sz) 2 ltac:(lia)) as Hr.
  lia.
Qed.

Lemma tick_in_bounds A random i g w :
  w <= 640 ->
  player_is (fun p => rw (Player.rect p) = w /\ in_bounds (Player.rect p)) g ->
  player_is (fun p => rw (Player.rect p) = w /\ in_bounds (Player.rect p))
            (fst (tick A random i g)).
Proof.
  intros Hw (p & Hp & Hpw & _).
  destruct (tick_player A random i g p Hp) as (p0 & _ & Hr & _ & _ & Hp').
  eexists. split; [exact Hp'|]. simpl. split.
  - now rewrite Hr.
  - apply (move_in_bounds p0 (direction i)). rewrite Hr. lia.
Qed.

(** C6. Provided the player's image is not wider than the play-field, the
    player's rectangle lies between the left edge 0 and the right edge 640
    after every call of [move] with a direction in {-1, 0, 1}, and so it does
    at the start and after every pass of a session. *)
Theorem C6_player_in_bounds A random :
  fst (player_size A 0) <= 640 ->
  (forall p d, rw (Player.rect p) = fst (player_size A 0) ->
               d = -1 \/ d = 0 \/ d = 1 ->
               0 <= Rect.left (Player.rect (Player.move p d))
               /\ Rect.right (Player.rect (Player.move p d)) <= 640)
  /\ (forall inputs,
        player_is (fun p => 0 <= Rect.left (Player.rect p)
                            /\ Rect.right (Player.rect p) <= 640)
                  (run A random inputs (start A random))).
Proof.
  intros Hw. split.
  - intros p d Hp _. apply (move_in_bounds p d). lia.
  - intros inputs. rewrite run_ticks.
    assert (player_is (fun p => rw (Player.rect p) = fst (player_size A 0)
                                /\ in_bounds (Player.rect p))
                      (ticks A random (passes A random inputs (start A random))
                             (start A random))) as (p & Hp & _ & Hb).
    { unfold ticks. apply fold_left_inv.
      - exists (Player.init (player_size A 0)). split.
        + unfold start. now destruct (font_available A).
        + split; [reflexivity|now apply init_in_bounds].
      - intros s x Hs. now apply tick_in_bounds. }
    exists p. split; [exact Hp|exact Hb].
Qed.

Lemma C6_player_in_bounds_witness :
  fst (player_size demo_assets 0) <= 640
  /\ player_is (fun p => 0 <= Rect.left (Player.rect p)
                         /\ Rect.right (Player.rect p) <= 640)
       (run demo_assets (fun _ => 1 # 2)%Q
            [mkInput false true false false; mkInput false true false true]
            (start demo_assets (fun _ => 1 # 2)%Q)).
Proof.
  split; [simpl; lia|].
  apply (C6_player_in_bounds demo_assets (fun _ => 1 # 2)%Q); simpl; lia.
Defined.

(** ** Firing *)

Lemma kinds_insert (h : list Sprite) id s s' :
  h !! id = Some s -> kind s' = kind s -> kind <$> <[id := s']> h = kind <$> h.
Proof.
  intros Hs Hk. rewrite list_fmap_insert. apply list_insert_id.
  now rewrite list_lookup_fmap, Hs, Hk.
Qed.

Lemma update_one_kinds A g id :
  kind <$> heap (update_one A g id) = kind <$> heap g.
Proof.
  unfold update_one. destruct (heap g !! id) as [s|] eqn:Hs; [|reflexivity].
  pose proof (update_sprite_kind A (SCORE g) s) as Hk.
  destruct (update_sprite A (SCORE g) s) as [s' k]. simpl in Hk.
  assert (kind <$> heap (set_heap g (<[id:=s']> (heap g))) = kind <$> heap g) as H.
  { simpl. eapply kinds_insert; eassumption. }
  destruct k; exact H.
Qed.

Lemma all_update_kinds A g : kind <$> heap (all_update A g) = kind <$> heap g.
Proof.
  unfold all_update.
  apply (fold_left_inv (fun g' => kind <$> heap g' = kind <$> heap g)); [reflexivity|].
  intros s x Hs. now rewrite update_one_kinds.
Qed.

Lemma fires_iff reloading firing nshots :
  fires reloading firing nshots = true
  <-> reloading = false /\ firing = true /\ (nshots < 2)%nat.
Proof.
  unfold fires, MAX_SHOTS.
  rewrite !andb_true_iff, negb_true_iff, Z.ltb_lt.
  assert (Z.of_nat nshots < 2 <-> (nshots < 2)%nat) by lia. tauto.
Qed.

(** The player's input creates one shot when [fires] holds and none
    otherwise. *)
Lemma handle_input_shots_ever A i g p :
  heap g !! player = Some (APlayer p) ->
  shots_ever (handle_input A i g)
  = (shots_ever g
     + if fires (Player.reloading p) (K_SPACE i) (length (shots g)) then 1 else 0)%nat.
Proof.
  intros Hp. unfold handle_input, shots_ever. rewrite Hp.
  set (p1 := Player.move p (direction i)).
  change (Player.reloading p1) with (Player.reloading p).
  change (shots (set_heap g (<[player:=APlayer p1]> (heap g)))) with (shots g).
  assert (kind <$> <[player:=APlayer p1]> (heap g) = kind <$> heap g) as Hk1
    by (eapply kinds_insert; [exact Hp|reflexivity]).
  assert (<[player:=APlayer p1]> (heap g) !! player = Some (APlayer p1)) as Hp1.
  { apply list_lookup_insert_eq. eapply lookup_lt_Some; eassumption. }
  destruct (fires _ _ _); simpl.
  - rewrite (kinds_insert _ player (APlayer p1)
               (APlayer (Player.set_reloading p1 (K_SPACE i)))); [| |reflexivity].
    + rewrite fmap_app, Hk1, filter_app, length_app. reflexivity.
    + rewrite lookup_app_l; [exact Hp1|]. eapply lookup_lt_Some; eassumption.
  - rewrite (kinds_insert _ player (APlayer p1)
               (APlayer (Player.set_reloading p1 (K_SPACE i))) Hp1 eq_refl).
    rewrite Hk1. lia.
Qed.

(** What a pass does about firing, for a player whose reload lock is
    [Player.reloading p] at its start. *)
Lemma tick_fire A random i g p :
  heap g !! player = Some (APlayer p) ->
  shots_ever (fst (tick A random i g))
  = (shots_ever g
     + if fires (Player.reloading p) (K_SPACE i)
                (length (shots (all_update A g))) then 1 else 0)%nat
  /\ player_is (fun p' => Player.reloading p' = K_SPACE i)
               (fst (tick A random i g)).
Proof.
  intros Hp.
  destruct (tick_player A random i g p Hp) as (p0 & Hp0 & _ & Hl & _ & Hp').
  split.
  - rewrite (extends_shots_ever _ _ (extends_after_input A random i g)).
    rewrite (handle_input_shots_ever A i _ p0 Hp0), Hl.
    unfold shots_ever. now rewrite all_update_kinds.
  - eexists. split; [exact Hp'|reflexivity].
Qed.

(** While the fire key stays down after a pass that saw it down, no shot is
    created. *)
Lemma held_no_shot A random inputs g :
  Forall (fun i => K_SPACE i = true) inputs ->
  player_is (fun p => Player.reloading p = true) g ->
  shots_ever (ticks A random inputs g) = shots_ever g.
Proof.
  intros Hall. revert g.
  induction Hall as [|i rest Hi Hall IH]; intros g (p & Hp & Hl); [reflexivity|].
  rewrite ticks_cons.
  destruct (tick_fire A random i g p Hp) as (Hn & p' & Hp' & Hl').
  rewrite IH by (exists p'; split; [exact Hp'|congruence]).
  rewrite Hn, Hl. simpl. lia.
Qed.

(** C4, as stated, fails when the cap is reached on the pass the key goes
    down: with two shots in flight and the key up, pressing and holding the
    fire key for three passes creates no shot at all. *)
Lemma C4_hold_at_cap_creates_none :
  player_is (fun p => Player.reloading p = false) two_shots_up
  /\ length (shots two_shots_up) = 2%nat
  /\ shots_ever (ticks demo_assets demo_random [fire_key; fire_key; fire_key]
                       two_shots_up)
     = shots_ever two_shots_up
  /\ shots_ever (ticks demo_assets demo_random [fire_key; fire_key; fire_key]
                       two_shots_up)
     <> S (shots_ever two_shots_up).
Proof.
  split; [|vm_compute; repeat split; congruence].
  eexists. split; [vm_compute; reflexivity|reflexivity].
Qed.

(** C4, amended. On a pass a shot is created if and only if the reload lock
    is unset, the fire key is down and fewer than 2 shots are alive; the lock
    is then set to the state of the fire key.  So a key that goes down and
    stays down creates at most one shot: one on the pass it goes down if
    fewer than 2 shots are alive then, none on that pass otherwise, and none
    on the later passes of the hold. *)
Theorem C4_firing A random g p :
  heap g !! player = Some (APlayer p) ->
  (forall i,
      let created :=
        fires (Player.reloading p) (K_SPACE i) (length (shots (all_update A g))) in
      (created = true
       <-> Player.reloading p = false /\ K_SPACE i = true
           /\ (length (shots (all_update A g)) < 2)%nat)
      /\ shots_ever (fst (tick A random i g))
         = (shots_ever g + if created then 1 else 0)%nat
      /\ player_is (fun p' => Player.reloading p' = K_SPACE i)
                   (fst (tick A random i g)))
  /\ (forall i rest,
      Player.reloading p = false ->
      Forall (fun i => K_SPACE i = true) (i :: rest) ->
      shots_ever (ticks A random (i :: rest) g)
      = shots_ever (fst (tick A random i g))
      /\ shots_ever (fst (tick A random i g))
         = (shots_ever g
            + if decide (length (shots (all_update A g)) < 2)%nat then 1 else 0)%nat).
Proof.
  intros Hp. split.
  - intros i. cbn zeta. split; [apply fires_iff|].
    apply (tick_fire A random i g p Hp).
  - intros i rest Hl Hall.
    apply Forall_cons in Hall as [Hi Hall].
    destruct (tick_fire A random i g p Hp) as (Hn & p' & Hp' & Hl').
    split.
    + rewrite ticks_cons. apply held_no_shot; [exact Hall|].
      exists p'. split; [exact Hp'|congruence].
    + rewrite Hn. f_equal.
      destruct (fires _ _ _) eqn:E.
      * apply fires_iff in E as (_ & _ & E). now rewrite decide_True.
      * rewrite decide_False; [reflexivity|]. intros Hlt.
        rewrite (proj2 (fires_iff _ _ _)) in E; [discriminate|tauto].
Qed.

Lemma C4_firing_witness :
  heap (start demo_assets demo_random) !! player
  = Some (APlayer (Player.init (player_size demo_assets 0)))
  /\ player_is (fun p' => Player.reloading p' = true)
               (fst (tick demo_assets demo_random fire_key
                          (start demo_assets demo_random))).
Proof.
  split; [reflexivity|].
  destruct (C4_firing demo_assets demo_random (start demo_assets demo_random)
                      (Player.init (player_size demo_assets 0)) eq_refl)
    as [H _].
  exact (proj2 (proj2 (H fire_key))).
Defined.

(** ** Enemy bullets *)

Lemma scaled_floor s n :
  (0 <= s)%Q -> 0 <= n -> scaled s n = Qfloor (s * inject_Z n).
Proof.
  intros Hs Hn. unfold scaled, py_int.
  assert (0 <= s * inject_Z n)%Q as H.
  { apply Qmult_le_0_compat; [exact Hs|].
    change 0%Q with (inject_Z 0). now rewrite <- Zle_Qle. }
  apply Qle_bool_iff in H. now rewrite H.
Qed.

Lemma wf_before_bullets A random i g : wf g -> wf (before_bullets A random i g).
Proof.
  intros Hw. unfold before_bullets.
  now apply wf_create_enemy, wf_handle_input, wf_all_update.
Qed.

(** [lastenemy] is the enemy created last when it is alive, and empty
    otherwise. *)
Lemma wf_lastenemy g :
  wf g ->
  (forall e, newest_enemy g = Some e -> e ∈ enemies g -> lastenemy g = Some e)
  /\ ((forall e, newest_enemy g = Some e -> e ∉ enemies g) -> lastenemy g = None).
Proof.
  intros (_ & _ & _ & _ & _ & Hl). rewrite Hl. split.
  - intros e -> He. simpl. now rewrite decide_True.
  - intros H. destruct (newest_enemy g) as [e|]; [|reflexivity].
    simpl. now rewrite decide_False by (now apply H).
Qed.

(** C5, as stated, fails: in this session an enemy is alive, but the enemy
    created last has been shot down; on the next pass no sample is drawn for
    an enemy bullet and none is spawned, whatever the random stream, also one
    whose samples are all 0 (and [floor(0 * BULLET_ODDS) = 0]). *)
Lemma C5_no_bullet_though_enemy_alive :
  let g := before_bullets demo_assets demo_random no_keys newest_shot_down in
  enemies g = [1%nat]
  /\ kind_at g 1 = Some KEnemy
  /\ newest_enemy g = Some 3%nat
  /\ Qfloor (0 * inject_Z BULLET_ODDS) = 0
  /\ shoot_enemy_bullets demo_assets (fun _ => 0%Q) g = g
  /\ before_collisions demo_assets demo_random no_keys newest_shot_down = g.
Proof.
  cbv zeta. repeat apply conj; vm_compute; reflexivity.
Qed.

(** C5, amended. On a pass on which the enemy created last is still alive,
    one sample is drawn and an enemy bullet is spawned from that enemy if and
    only if [floor(sample * BULLET_ODDS) = 0]. On a pass on which the enemy
    created last is no longer alive, no sample is drawn and no bullet is
    spawned, even if older enemies are alive. *)
Theorem C5_enemy_bullets A random i g0 :
  wf g0 -> (forall n, 0 <= random n)%Q ->
  let g := before_bullets A random i g0 in
  let g' := shoot_enemy_bullets A random g in
  let sample := random (drawn g) in
  before_collisions A random i g0 = g'
  /\ (forall e, newest_enemy g = Some e -> e ∈ enemies g ->
        drawn g' = S (drawn g)
        /\ (Qfloor (sample * inject_Z BULLET_ODDS) = 0 ->
            heap g' = heap g ++ [AnEnemyBullet
                                   (EnemyBullet.init (enemy_bullet_size A) (rect_of g e))]
            /\ enemy_bullets g' = enemy_bullets g ++ [length (heap g)])
        /\ (Qfloor (sample * inject_Z BULLET_ODDS) <> 0 ->
            heap g' = heap g /\ enemy_bullets g' = enemy_bullets g))
  /\ ((forall e, newest_enemy g = Some e -> e ∉ enemies g) -> g' = g).
Proof.
  intros Hw0 Hrand g g' sample.
  assert (wf g) as Hw by now apply wf_before_bullets.
  destruct (wf_lastenemy g Hw) as [Hlive Hdead].
  split; [reflexivity|]. split.
  - intros e Hn He. specialize (Hlive e Hn He).
    unfold g', shoot_enemy_bullets. rewrite Hlive.
    cbn [draw_sample]. fold sample.
    rewrite (scaled_floor sample BULLET_ODDS (Hrand _)) by (unfold BULLET_ODDS; lia).
    destruct (Z.eqb_spec (Qfloor (sample * inject_Z BULLET_ODDS)) 0) as [Hz|Hnz].
    + split; [reflexivity|]. split; [|intros Hc; now destruct Hc].
      intros _. split; [reflexivity|].
      cbn [new_EnemyBullet enemy_bullets heap]. unfold add_id.
      rewrite decide_False; [reflexivity|].
      intros Hin. destruct Hw as (_ & _ & _ & Hb & _).
      rewrite Forall_forall in Hb. specialize (Hb _ Hin).
      apply kind_at_lt in Hb. lia.
    + split; [reflexivity|]. split; [intros Hc; now destruct Hnz|].
      intros _. split; reflexivity.
  - intros Hn. unfold g', shoot_enemy_bullets. now rewrite (Hdead Hn).
Qed.

Lemma C5_enemy_bullets_witness :
  wf (start demo_assets (fun _ => 1 # 2)%Q)
  /\ before_collisions demo_assets (fun _ => 1 # 2)%Q no_keys
                       (start demo_assets (fun _ => 1 # 2)%Q)
     = shoot_enemy_bullets demo_assets (fun _ => 1 # 2)%Q
         (before_bullets demo_assets (fun _ => 1 # 2)%Q no_keys
                         (start demo_assets (fun _ => 1 # 2)%Q)).
Proof.
  split; [apply wf_start|].
  apply (C5_enemy_bullets demo_assets (fun _ => 1 # 2)%Q no_keys
                          (start demo_assets (fun _ => 1 # 2)%Q)).
  - apply wf_start.
  - intros n. unfold Qle. simpl. lia.
Defined.

(** ** Groups hold objects of their class *)

Lemma wf_group_kinds g :
  wf g ->
  (forall id, id ∈ enemies g -> kind_at g id = Some KEnemy)
  /\ (forall id, id ∈ shots g -> kind_at g id = Some KShot)
  /\ (forall id, id ∈ enemy_bullets g -> kind_at g id = Some KEnemyBullet).
Proof.
  intros (_ & He & Hs & Hb & _). rewrite !Forall_forall in *. auto.
Qed.

Lemma wf_player_notin g :
  wf g ->
  (player ∉ enemies g) /\ (player ∉ shots g) /\ (player ∉ enemy_bullets g).
Proof.
  intros Hw. destruct (wf_group_kinds g Hw) as (He & Hs & Hb).
  destruct Hw as (Hp & _).
  repeat split; intros Hin;
    [apply He in Hin|apply Hs in Hin|apply Hb in Hin]; congruence.
Qed.

Lemma wf_enemy_notin g id :
  wf g -> id ∈ enemies g -> (id ∉ shots g) /\ (id ∉ enemy_bullets g).
Proof.
  intros Hw Hin. destruct (wf_group_kinds g Hw) as (He & Hs & Hb).
  apply He in Hin.
  split; intros Hin'; [apply Hs in Hin'|apply Hb in Hin']; congruence.
Qed.

Lemma wf_shot_notin g id :
  wf g -> id ∈ shots g -> (id ∉ enemies g) /\ (id ∉ enemy_bullets g).
Proof.
  intros Hw Hin. destruct (wf_group_kinds g Hw) as (He & Hs & Hb).
  apply Hs in Hin.
  split; intros Hin'; [apply He in Hin'|apply Hb in Hin']; congruence.
Qed.

Lemma wf_member_lt g id :
  wf g -> id ∈ enemies g \/ id ∈ shots g \/ id ∈ enemy_bullets g \/ id = player ->
  (id < length (heap g))%nat.
Proof.
  intros Hw Hin. destruct (wf_group_kinds g Hw) as (He & Hs & Hb).
  destruct Hin as [H|[H|[H| ->]]];
    [apply He in H|apply Hs in H|apply Hb in H|destruct Hw as (H & _)];
    eapply kind_at_lt; eassumption.
Qed.

(** ** Alive and dead *)

Lemma alive_false id g :
  alive id g = false
  <-> (id ∉ enemies g) /\ (id ∉ shots g) /\ (id ∉ enemy_bullets g)
      /\ (id ∉ all_ids g) /\ lastenemy g <> Some id.
Proof.
  unfold alive. rewrite !orb_false_iff, !bool_decide_eq_false. tauto.
Qed.

Lemma all_ids_kill id g : all_ids (kill id g) = remove_id id (all_ids g).
Proof.
  unfold all_ids, remove_id. simpl.
  induction (all g) as [|[j r] l IH]; [reflexivity|].
  rewrite filter_cons. simpl. rewrite filter_cons.
  destruct (decide (j <> id)); simpl; now rewrite IH.
Qed.

Lemma elem_of_remove_id j id (l : list nat) :
  j ∈ remove_id id l <-> j ∈ l /\ j <> id.
Proof. unfold remove_id. rewrite list_elem_of_filter. tauto. Qed.

Lemma dead_kill_self id g : alive id (kill id g) = false.
Proof.
  apply alive_false. rewrite all_ids_kill. simpl.
  rewrite !elem_of_remove_id. repeat split; try tauto.
  destruct (lastenemy g) as [j|]; [|discriminate].
  destruct (decide (j = id)); congruence.
Qed.

Lemma dead_kill id j g : alive id g = false -> alive id (kill j g) = false.
Proof.
  rewrite !alive_false. rewrite all_ids_kill. simpl.
  rewrite !elem_of_remove_id. intros (He & Hs & Hb & Ha & Hl).
  repeat split; try tauto.
  destruct (lastenemy g) as [e|]; [|discriminate].
  destruct (decide (e = j)); congruence.
Qed.

Lemma dead_kill_all id ids g : id ∈ ids -> alive id (kill_all ids g) = false.
Proof.
  intros Hin. revert g. induction ids as [|a ids IH]; intros g.
  - now apply elem_of_nil in Hin.
  - simpl. destruct (decide (id = a)) as [->|Hne].
    + unfold kill_all. apply fold_left_inv; [apply dead_kill_self|].
      intros s x. apply dead_kill.
    + apply IH. apply elem_of_cons in Hin as [Heq|Hin]; congruence.
Qed.

Lemma all_ids_add id l :
  map fst (add_all id l) = add_id id (map fst l).
Proof.
  unfold add_all, add_id. destruct (decide _); [reflexivity|].
  now rewrite map_app.
Qed.

Lemma elem_of_add_id' j id (l : list nat) :
  j ∈ add_id id l <-> j ∈ l \/ j = id.
Proof.
  unfold add_id. destruct (decide (id ∈ l)) as [Hin|Hout].
  - split; [tauto|]. intros [H| ->]; assumption.
  - rewrite elem_of_app, list_elem_of_singleton. tauto.
Qed.

Lemma dead_new_Explosion A r id g :
  alive id g = false -> id <> length (heap g) ->
  alive id (new_Explosion A r g) = false.
Proof.
  rewrite !alive_false. unfold all_ids. simpl. rewrite all_ids_add.
  rewrite elem_of_add_id'. tauto.
Qed.

Lemma alive_in_all id g : id ∈ all_ids g -> alive id g = true.
Proof.
  intros Hin. unfold alive. rewrite !orb_true_iff, !bool_decide_eq_true. tauto.
Qed.

(** ** The player against the enemies *)

Lemma player_enemy_body_frame A g e :
  player ∉ enemies g -> player ∉ shots g -> player ∉ enemy_bullets g ->
  let g' := player_enemy_body A g e in
  SCORE g' = SCORE g + 1
  /\ enemies g' = enemies g /\ shots g' = shots g
  /\ enemy_bullets g' = enemy_bullets g
  /\ drawn g' = drawn g /\ enemyreload g' = enemyreload g.
Proof.
  intros He Hs Hb. unfold player_enemy_body. simpl.
  now rewrite !remove_id_notin.
Qed.

Lemma player_enemy_fold_frame A l g :
  player ∉ enemies g -> player ∉ shots g -> player ∉ enemy_bullets g ->
  let g' := fold_left (player_enemy_body A) l g in
  SCORE g' = SCORE g + Z.of_nat (length l)
  /\ enemies g' = enemies g /\ shots g' = shots g
  /\ enemy_bullets g' = enemy_bullets g.
Proof.
  revert g. induction l as [|e l IH]; intros g He Hs Hb.
  - simpl. repeat split; lia.
  - cbn [fold_left].
    destruct (player_enemy_body_frame A g e He Hs Hb) as (H1 & H2 & H3 & H4 & _).
    destruct (IH (player_enemy_body A g e)) as (I1 & I2 & I3 & I4);
      [rewrite H2; exact He|rewrite H3; exact Hs|rewrite H4; exact Hb|].
    cbv zeta. rewrite I1, I2, I3, I4, H1, H2, H3, H4.
    repeat split. rewrite length_cons. lia.
Qed.

Lemma player_enemy_body_heap A g e :
  (player < length (heap g))%nat ->
  heap (player_enemy_body A g e) = heap g ++ explosions_for A g [e].
Proof.
  intros Hp. unfold player_enemy_body, explosions_for. simpl.
  rewrite <- app_assoc. simpl. do 4 f_equal.
  unfold rect_of. simpl. now rewrite lookup_app_l.
Qed.

Lemma explosions_for_ext A g g' l :
  extends g g' ->
  (player < length (heap g))%nat ->
  Forall (fun e => (e < length (heap g))%nat) l ->
  explosions_for A g' l = explosions_for A g l.
Proof.
  intros Hx Hp Hl. unfold explosions_for.
  induction Hl as [|e l He Hl IH]; [reflexivity|].
  simpl. rewrite IH.
  now rewrite (extends_rect_of g g' e Hx He), (extends_rect_of g g' player Hx Hp).
Qed.

Lemma player_enemy_fold_heap A l g :
  (player < length (heap g))%nat ->
  Forall (fun e => (e < length (heap g))%nat) l ->
  heap (fold_left (player_enemy_body A) l g) = heap g ++ explosions_for A g l.
Proof.
  revert g. induction l as [|e l IH]; intros g Hp Hl.
  - simpl. now rewrite app_nil_r.
  - cbn [fold_left]. apply Forall_cons in Hl as [He Hl].
    pose proof (player_enemy_body_heap A g e Hp) as Hh.
    pose proof (extends_player_enemy_body A g e) as Hx.
    assert (length (heap g) <= length (heap (player_enemy_body A g e)))%nat as Hlen
      by (rewrite Hh, length_app; lia).
    rewrite IH.
    + rewrite Hh, <- app_assoc. f_equal.
      rewrite (explosions_for_ext A g _ l Hx Hp Hl). reflexivity.
    + lia.
    + eapply Forall_impl; [exact Hl|]. intros j Hj. simpl in *. lia.
Qed.

(** The first check: the enemies overlapping the player are killed, and for
    each of them the loop body runs once. *)
Lemma check_player_enemies_eq A g :
  let crashed := hits (rect_of g player) g (enemies g) in
  check_player_enemies A g
  = (crashed, fold_left (player_enemy_body A) crashed (kill_all crashed g)).
Proof.
  unfold check_player_enemies. now rewrite spritecollide_spec.
Qed.

Lemma player_enemy_body_dead A g x id :
  alive id g = false -> (id < length (heap g))%nat ->
  alive id (player_enemy_body A g x) = false
  /\ (id < length (heap (player_enemy_body A g x)))%nat.
Proof.
  intros Hd Hlt. split.
  - unfold player_enemy_body. apply dead_kill.
    change (alive id (new_Explosion A (rect_of (new_Explosion A (rect_of g x) g) player)
                                    (new_Explosion A (rect_of g x) g)) = false).
    apply dead_new_Explosion.
    + apply dead_new_Explosion; [exact Hd|lia].
    + simpl. rewrite length_app. simpl. lia.
  - unfold player_enemy_body. simpl. rewrite !length_app. simpl. lia.
Qed.

Lemma player_enemy_fold_dead A l g id :
  alive id g = false -> (id < length (heap g))%nat ->
  alive id (fold_left (player_enemy_body A) l g) = false.
Proof.
  intros Hd Hlt.
  apply (fold_left_inv (fun s => alive id s = false /\ (id < length (heap s))%nat));
    [easy|].
  intros s x [H1 H2]. now apply player_enemy_body_dead.
Qed.

Lemma player_enemy_body_kills_player A g x :
  (player < length (heap g))%nat ->
  alive player (player_enemy_body A g x) = false
  /\ (player < length (heap (player_enemy_body A g x)))%nat.
Proof.
  intros Hlt. split; [apply dead_kill_self|].
  unfold player_enemy_body. simpl. rewrite !length_app. simpl. lia.
Qed.

Lemma player_enemy_body_spawned A g x n0 :
  (player < n0)%nat ->
  (forall j, (n0 <= j < length (heap g))%nat -> j ∈ all_ids g) ->
  forall j, (n0 <= j < length (heap (player_enemy_body A g x)))%nat ->
            j ∈ all_ids (player_enemy_body A g x).
Proof.
  intros Hp Hq j Hj. unfold player_enemy_body in *.
  rewrite all_ids_kill. apply elem_of_remove_id. split; [|lia].
  unfold all_ids in *. simpl in *. rewrite !all_ids_add, !elem_of_add_id'.
  rewrite !length_app in *. simpl in *.
  destruct (decide (j < length (heap g))%nat) as [Hlt|Hge].
  - left. left. apply Hq. lia.
  - lia.
Qed.

Lemma explosions_for_length A g l :
  length (explosions_for A g l) = (2 * length l)%nat.
Proof.
  unfold explosions_for. induction l as [|e l IH]; [reflexivity|].
  simpl in *. rewrite IH. lia.
Qed.

Lemma explosion_centre sz r :
  Rect.center (Explosion.rect (Explosion.init sz r)) = Rect.center r.
Proof.
  unfold Explosion.init, Rect.of_center, Rect.center, Rect.centerx, Rect.centery.
  cbn -[Z.quot]. f_equal; lia.
Qed.

(** C10. When [k >= 1] enemies overlap the player's rectangle, the first
    check kills these [k] enemies and the player (the other enemies stay),
    adds [k] to the score and creates [2k] explosions, all of them in the
    render group: for each of the enemies in turn one centred on the enemy and
    one centred on the player. *)
Theorem C10_player_hits_enemies A g :
  wf g ->
  let crashed := hits (rect_of g player) g (enemies g) in
  let g' := snd (check_player_enemies A g) in
  (1 <= length crashed)%nat ->
  fst (check_player_enemies A g) = crashed
  /\ (forall e, e ∈ crashed -> alive e g' = false)
  /\ enemies g' = remove_ids crashed (enemies g)
  /\ alive player g' = false
  /\ SCORE g' = SCORE g + Z.of_nat (length crashed)
  /\ heap g' = heap g ++ explosions_for A g crashed
  /\ length (explosions_for A g crashed) = (2 * length crashed)%nat
  /\ (forall j, (length (heap g) <= j < length (heap g'))%nat -> alive j g' = true)
  /\ (forall r, Rect.center (Explosion.rect (Explosion.init (explosion_size A) r))
                = Rect.center r).
Proof.
  intros Hw crashed g' Hk.
  unfold g'. rewrite check_player_enemies_eq. fold crashed. cbn [fst snd].
  set (g1 := kill_all crashed g).
  assert (wf g1) as Hw1 by now apply wf_kill_all.
  destruct (wf_player_notin g1 Hw1) as (Hpe & Hps & Hpb).
  destruct (kill_all_frame crashed g) as (Hh1 & Hs1 & _).
  destruct (kill_all_groups crashed g) as (He1 & _).
  fold g1 in Hh1, Hs1, He1.
  assert (player < length (heap g))%nat as Hplt by (apply wf_member_lt; auto).
  assert (Forall (fun e => (e < length (heap g))%nat) crashed) as Hclt.
  { apply Forall_forall. intros e He. apply wf_member_lt; [exact Hw|]. left.
    eapply elem_of_sublist; [exact He|apply hits_sublist]. }
  destruct (player_enemy_fold_frame A crashed g1 Hpe Hps Hpb) as (F1 & F2 & _).
  assert (heap (fold_left (player_enemy_body A) crashed g1)
          = heap g ++ explosions_for A g crashed) as Hheap.
  { rewrite player_enemy_fold_heap; rewrite ?Hh1; try assumption.
    f_equal. apply explosions_for_ext; [now apply extends_eq|assumption..]. }
  split; [reflexivity|]. split; [|split; [|split; [|split; [|split; [|split; [|split]]]]]].
  - intros e He. apply player_enemy_fold_dead.
    + now apply dead_kill_all.
    + rewrite Hh1. rewrite Forall_forall in Hclt. now apply Hclt.
  - now rewrite F2, He1.
  - destruct crashed as [|e0 rest] eqn:Ec; [simpl in Hk; lia|].
    cbn [fold_left].
    destruct (player_enemy_body_kills_player A g1 e0) as [Hd Hl];
      [now rewrite Hh1|].
    now apply player_enemy_fold_dead.
  - rewrite F1, Hs1. reflexivity.
  - exact Hheap.
  - apply explosions_for_length.
  - intros j Hj. apply alive_in_all. revert j Hj.
    apply (fold_left_inv (fun s =>
      forall j, (length (heap g) <= j < length (heap s))%nat -> j ∈ all_ids s)).
    + intros j Hj. rewrite Hh1 in Hj. lia.
    + intros s x Hs. now apply player_enemy_body_spawned.
  - intros r. apply explosion_centre.
Qed.

Lemma wf_enemy_on_player : wf enemy_on_player.
Proof. apply wf_before_collisions, wf_ticks, wf_start. Qed.

Lemma C10_player_hits_enemies_witness :
  wf enemy_on_player
  /\ (1 <= length (hits (rect_of enemy_on_player player) enemy_on_player
                        (enemies enemy_on_player)))%nat
  /\ alive player (snd (check_player_enemies demo_assets enemy_on_player)) = false.
Proof.
  assert (1 <= length (hits (rect_of enemy_on_player player) enemy_on_player
                            (enemies enemy_on_player)))%nat as Hk
    by (vm_compute; lia).
  split; [exact wf_enemy_on_player|]. split; [exact Hk|].
  exact (proj1 (proj2 (proj2 (proj2
    (C10_player_hits_enemies demo_assets enemy_on_player wf_enemy_on_player Hk))))).
Defined.

(** ** The shots against the enemies *)

Lemma remove_ids_ext ids ids' (l : list nat) :
  (forall j, j ∈ l -> (j ∈ ids <-> j ∈ ids')) ->
  remove_ids ids l = remove_ids ids' l.
Proof.
  intros H. unfold remove_ids. induction l as [|a l IH]; [reflexivity|].
  rewrite !filter_cons.
  assert (a ∈ ids <-> a ∈ ids') as Ha by (apply H; now left).
  rewrite IH by (intros j Hj; apply H; now right).
  destruct (decide (a ∉ ids)), (decide (a ∉ ids')); tauto.
Qed.

Lemma shot_hits_keys rect es ss :
  map fst (shot_hits rect es ss) `sublist_of` es.
Proof.
  revert ss. induction es as [|e es IH]; intros ss; simpl; [reflexivity|].
  destruct (filter _ ss) as [|c cs].
  - apply sublist_cons, IH.
  - simpl. apply sublist_skip, IH.
Qed.

Lemma shot_hits_shots rect es ss p s :
  p ∈ shot_hits rect es ss -> s ∈ snd p -> s ∈ ss.
Proof.
  revert ss. induction es as [|e es IH]; intros ss Hp Hs; simpl in Hp.
  - now apply elem_of_nil in Hp.
  - destruct (filter _ ss) as [|c cs] eqn:Ef.
    + now apply (IH ss).
    + apply elem_of_cons in Hp as [->|Hp].
      * simpl in Hs. rewrite <- Ef in Hs.
        now apply list_elem_of_filter in Hs as [_ Hs].
      * apply IH in Hp; [|exact Hs].
        now apply elem_of_remove_ids in Hp as [Hp _].
Qed.

Lemma groupcollide_fold g es acc g' :
  heap g' = heap g ->
  (forall e, e ∈ es -> e ∉ shots g') ->
  fold_left groupcollide_step es (acc, g')
  = (acc ++ shot_hits (rect_of g) es (shots g'),
     kill_all (killed_by (shot_hits (rect_of g) es (shots g'))) g').
Proof.
  revert acc g'. induction es as [|e es IH]; intros acc g' Hh Hd.
  - simpl. now rewrite app_nil_r.
  - cbn [fold_left]. unfold groupcollide_step at 2. cbn [fst snd].
    rewrite spritecollide_spec. cbn [members].
    rewrite (rect_of_heap g g' e Hh), (hits_heap _ g g' _ Hh).
    cbn [shot_hits]. unfold hits.
    set (col := filter _ (shots g')).
    destruct (kill_all_frame col g') as (Hh' & _).
    destruct (kill_all_groups col g') as (_ & Hs' & _).
    destruct col as [|c cs] eqn:Ec.
    + cbn [kill_all fold_left]. apply IH; [exact Hh|].
      intros e' He'. apply Hd. now right.
    + rewrite <- Ec in *.
      assert (shots (kill e (kill_all col g')) = remove_ids col (shots g')) as Hsh.
      { simpl. rewrite Hs'. apply remove_id_notin.
        intros Hin. apply elem_of_remove_ids in Hin as [Hin _].
        apply (Hd e); [now left|exact Hin]. }
      rewrite IH.
      * rewrite Hsh, <- app_assoc. f_equal.
        unfold killed_by at 2. cbn [flat_map fst snd].
        fold (killed_by (shot_hits (rect_of g) es (remove_ids col (shots g')))).
        now rewrite !kill_all_app.
      * simpl. rewrite Hh'. exact Hh.
      * intros e' He'. rewrite Hsh. intros Hin.
        apply elem_of_remove_ids in Hin as [Hin _].
        apply (Hd e'); [now right|exact Hin].
Qed.

Lemma groupcollide_spec g :
  (forall e, e ∈ enemies g -> e ∉ shots g) ->
  groupcollide g
  = (shot_hits (rect_of g) (enemies g) (shots g),
     kill_all (killed_by (shot_hits (rect_of g) (enemies g) (shots g))) g).
Proof. intros Hd. unfold groupcollide. now rewrite (groupcollide_fold g). Qed.

Lemma elem_of_killed_by j H :
  j ∈ killed_by H <-> exists p, p ∈ H /\ (j ∈ snd p \/ j = fst p).
Proof.
  unfold killed_by. induction H as [|q H IH]; simpl.
  - split; [intros Hx; now apply elem_of_nil in Hx|].
    intros (p & Hp & _). now apply elem_of_nil in Hp.
  - rewrite !elem_of_app, IH, list_elem_of_singleton. split.
    + intros [[Hs|He]|(p & Hp & Hj)].
      * exists q. split; [now left|tauto].
      * exists q. split; [now left|tauto].
      * exists p. split; [now right|exact Hj].
    + intros (p & Hp & Hj). apply elem_of_cons in Hp as [->|Hp].
      * tauto.
      * right. now exists p.
Qed.

Lemma shot_enemy_fold_frame A l g :
  let g' := fold_left (shot_enemy_body A) l g in
  SCORE g' = SCORE g + Z.of_nat (length l)
  /\ enemies g' = enemies g /\ shots g' = shots g
  /\ enemy_bullets g' = enemy_bullets g /\ lastenemy g' = lastenemy g.
Proof.
  revert g. induction l as [|e l IH]; intros g.
  - simpl. repeat split; lia.
  - cbn [fold_left]. destruct (IH (shot_enemy_body A g e)) as (I1 & I2 & I3 & I4 & I5).
    cbv zeta. rewrite I1, I2, I3, I4, I5. simpl. repeat split. lia.
Qed.

(** The second check on a well-formed state. *)
Lemma check_shots_enemies_eq A g :
  wf g ->
  let H := shot_hits (rect_of g) (enemies g) (shots g) in
  check_shots_enemies A g
  = (map fst H, fold_left (shot_enemy_body A) (map fst H) (kill_all (killed_by H) g))
  /\ enemies (kill_all (killed_by H) g) = remove_ids (map fst H) (enemies g)
  /\ enemy_bullets (kill_all (killed_by H) g) = enemy_bullets g.
Proof.
  intros Hw H. unfold check_shots_enemies.
  rewrite groupcollide_spec by (intros e He; now apply (wf_enemy_notin g e Hw)).
  fold H. split; [reflexivity|].
  destruct (kill_all_groups (killed_by H) g) as (He & _ & Hb).
  assert (forall j, j ∈ killed_by H -> j ∈ enemies g \/ j ∈ shots g) as Hk.
  { intros j Hj. apply elem_of_killed_by in Hj as (p & Hp & [Hj| ->]).
    - right. eapply shot_hits_shots; eassumption.
    - left. eapply elem_of_sublist; [|apply (shot_hits_keys (rect_of g) _ (shots g))].
      apply list_elem_of_fmap. now exists p. }
  split.
  - rewrite He. apply remove_ids_ext. intros j Hj. split.
    + intros Hin. apply elem_of_killed_by in Hin as (p & Hp & [Hs| ->]).
      * exfalso. apply (proj1 (wf_enemy_notin g j Hw Hj)).
        eapply shot_hits_shots; eassumption.
      * apply list_elem_of_fmap. now exists p.
    + intros Hin. apply list_elem_of_fmap in Hin as (p & -> & Hp).
      apply elem_of_killed_by. exists p. tauto.
  - rewrite Hb. apply remove_ids_disjoint. intros j Hj Hin.
    destruct (Hk j Hj) as [H1|H1].
    + now apply (proj2 (wf_enemy_notin g j Hw H1)).
    + now apply (proj2 (wf_shot_notin g j Hw H1)).
Qed.

(** ** The player against the enemy bullets *)

Lemma player_bullet_fold_frame A l g :
  player ∉ enemies g -> player ∉ shots g ->
  let g' := fold_left (player_bullet_body A) l g in
  SCORE g' = SCORE g /\ enemies g' = enemies g /\ shots g' = shots g.
Proof.
  revert g. induction l as [|b l IH]; intros g He Hs; [easy|].
  cbn [fold_left].
  assert (enemies (player_bullet_body A g b) = enemies g) as H1
    by (simpl; now apply remove_id_notin).
  assert (shots (player_bullet_body A g b) = shots g) as H2
    by (simpl; now apply remove_id_notin).
  destruct (IH (player_bullet_body A g b)) as (I1 & I2 & I3);
    [now rewrite H1|now rewrite H2|].
  cbv zeta. rewrite I1, I2, I3, H1, H2. easy.
Qed.

(** The third check on a well-formed state: it leaves the score and the
    enemies alone. *)
Lemma check_player_bullets_eq A g :
  wf g ->
  let crashed := hits (rect_of g player) g (enemy_bullets g) in
  let g' := snd (check_player_bullets A g) in
  fst (check_player_bullets A g) = crashed
  /\ SCORE g' = SCORE g /\ enemies g' = enemies g /\ shots g' = shots g.
Proof.
  intros Hw crashed g'. unfold g', check_player_bullets.
  rewrite spritecollide_spec. cbn [members fst snd]. fold crashed.
  split; [reflexivity|].
  destruct (kill_all_frame crashed g) as (_ & Hs & _).
  destruct (kill_all_groups crashed g) as (He & Hsh & _).
  pose proof (wf_kill_all crashed g Hw) as Hw1.
  destruct (wf_player_notin _ Hw1) as (Hpe & Hps & _).
  destruct (player_bullet_fold_frame A crashed _ Hpe Hps) as (F1 & F2 & F3).
  rewrite F1, F2, F3, Hs, He, Hsh.
  assert (forall j, j ∈ crashed -> j ∈ enemy_bullets g) as Hc
    by (intros j Hj; eapply elem_of_sublist; [exact Hj|apply hits_sublist]).
  destruct (wf_group_kinds g Hw) as (Ke & Ks & Kb).
  repeat split; apply remove_ids_disjoint; intros j Hj Hin;
    apply Hc, Kb in Hj; [apply Ke in Hin|apply Ks in Hin]; congruence.
Qed.

(** ** The score before the checks *)

Lemma update_one_SCORE A g id : SCORE (update_one A g id) = SCORE g.
Proof.
  unfold update_one. destruct (heap g !! id); [|reflexivity].
  destruct (update_sprite _ _ _) as [s' k]. now destruct k.
Qed.

Lemma all_update_SCORE A g : SCORE (all_update A g) = SCORE g.
Proof.
  unfold all_update. apply (fold_left_inv (fun s => SCORE s = SCORE g)); [reflexivity|].
  intros s x Hs. now rewrite update_one_SCORE.
Qed.

Lemma handle_input_SCORE A i g : SCORE (handle_input A i g) = SCORE g.
Proof.
  unfold handle_input. destruct (heap g !! player) as [[p| | | | |]|]; try reflexivity.
  now destruct (fires _ _ _).
Qed.

Lemma create_enemy_SCORE A random g : SCORE (create_enemy A random g) = SCORE g.
Proof.
  unfold create_enemy. destruct (negb _); [reflexivity|].
  cbn [draw_sample]. now destruct (scaled _ _ =? 0).
Qed.

Lemma shoot_enemy_bullets_SCORE A random g :
  SCORE (shoot_enemy_bullets A random g) = SCORE g.
Proof.
  unfold shoot_enemy_bullets. destruct (lastenemy g); [|reflexivity].
  cbn [draw_sample]. now destruct (scaled _ _ =? 0).
Qed.

Lemma before_collisions_SCORE A random i g :
  SCORE (before_collisions A random i g) = SCORE g.
Proof.
  unfold before_collisions.
  now rewrite shoot_enemy_bullets_SCORE, create_enemy_SCORE, handle_input_SCORE,
    all_update_SCORE.
Qed.

(** ** The three checks together *)

Lemma check_player_enemies_facts A g :
  wf g ->
  let crashed := hits (rect_of g player) g (enemies g) in
  let g1 := snd (check_player_enemies A g) in
  fst (check_player_enemies A g) = crashed
  /\ SCORE g1 = SCORE g + Z.of_nat (length crashed)
  /\ enemies g1 = remove_ids crashed (enemies g)
  /\ shots g1 = shots g
  /\ enemy_bullets g1 = enemy_bullets g.
Proof.
  intros Hw crashed g1. unfold g1. rewrite check_player_enemies_eq.
  fold crashed. cbn [fst snd]. split; [reflexivity|].
  pose proof (wf_kill_all crashed g Hw) as Hw1.
  destruct (wf_player_notin _ Hw1) as (Hpe & Hps & Hpb).
  destruct (player_enemy_fold_frame A crashed _ Hpe Hps Hpb) as (F1 & F2 & F3 & F4).
  destruct (kill_all_frame crashed g) as (_ & Hs & _).
  destruct (kill_all_groups crashed g) as (He & Hsh & Hb).
  rewrite F1, F2, F3, F4, Hs, He, Hsh, Hb.
  assert (forall j, j ∈ crashed -> j ∈ enemies g) as Hc
    by (intros j Hj; eapply elem_of_sublist; [exact Hj|apply hits_sublist]).
  repeat split; apply remove_ids_disjoint; intros j Hj;
    apply Hc in Hj; now apply (wf_enemy_notin g j Hw).
Qed.

Lemma check_shots_enemies_facts A g :
  wf g ->
  let H := shot_hits (rect_of g) (enemies g) (shots g) in
  let g2 := snd (check_shots_enemies A g) in
  fst (check_shots_enemies A g) = map fst H
  /\ SCORE g2 = SCORE g + Z.of_nat (length (map fst H))
  /\ enemies g2 = remove_ids (map fst H) (enemies g)
  /\ enemy_bullets g2 = enemy_bullets g.
Proof.
  intros Hw H g2. unfold g2.
  destruct (check_shots_enemies_eq A g Hw) as (Heq & He & Hb). fold H in Heq, He, Hb.
  rewrite Heq. cbn [fst snd]. split; [reflexivity|].
  destruct (shot_enemy_fold_frame A (map fst H) (kill_all (killed_by H) g))
    as (F1 & F2 & _ & F4 & _).
  destruct (kill_all_frame (killed_by H) g) as (_ & Hs & _).
  rewrite F1, F2, F4, Hs, He, Hb. easy.
Qed.

(** C1. Over a pass the score never decreases: nothing before the collision
    checks changes it, the first two checks add one for each enemy they
    destroy, and the check of the player against the enemy bullets leaves it
    as it is.  The enemies the two checks destroy are exactly the enemies
    that leave the [enemies] group during the collision phase, so the score
    increases by the number of enemies destroyed by these collisions. *)
Theorem C1_score A random i g :
  wf g ->
  let g0 := before_collisions A random i g in
  let r1 := check_player_enemies A g0 in
  let r2 := check_shots_enemies A (snd r1) in
  let r3 := check_player_bullets A (snd r2) in
  let g' := fst (tick A random i g) in
  SCORE g <= SCORE g'
  /\ SCORE g0 = SCORE g
  /\ SCORE g' = SCORE g + Z.of_nat (length (fst r1)) + Z.of_nat (length (fst r2))
  /\ enemies g' = remove_ids (fst r1 ++ fst r2) (enemies g0)
  /\ (forall e, e ∈ fst r1 ++ fst r2 -> e ∈ enemies g0)
  /\ (length (enemies g') + (length (fst r1) + length (fst r2))
      = length (enemies g0))%nat
  /\ SCORE (snd r3) = SCORE (snd r2)
  /\ enemies (snd r3) = enemies (snd r2).
Proof.
  intros Hw g0 r1 r2 r3 g'.
  assert (wf g0) as Hw0 by now apply wf_before_collisions.
  pose proof (before_collisions_SCORE A random i g) as Hs0. fold g0 in Hs0.
  destruct (check_player_enemies_facts A g0 Hw0) as (E1 & S1 & N1 & _).
  fold r1 in E1, S1, N1.
  assert (wf (snd r1)) as Hw1 by now apply wf_check_player_enemies.
  destruct (check_shots_enemies_facts A (snd r1) Hw1) as (E2 & S2 & N2 & _).
  fold r2 in E2, S2, N2.
  assert (wf (snd r2)) as Hw2 by now apply wf_check_shots_enemies.
  destruct (check_player_bullets_eq A (snd r2) Hw2) as (_ & S3 & N3 & _).
  fold r3 in S3, N3.
  assert (SCORE g' = SCORE (snd r3) /\ enemies g' = enemies (snd r3)) as [Sg Ng].
  { unfold g'. rewrite tick_eq. cbn [fst].
    destruct (all_draw_frame A (before_draw A random i g))
      as (_ & He & _ & _ & _ & Hs & _).
    split; [exact Hs|exact He]. }
  assert (fst r1 `sublist_of` enemies g0) as Sub1
    by (rewrite E1; apply hits_sublist).
  assert (fst r2 `sublist_of` enemies (snd r1)) as Sub2
    by (rewrite E2; apply shot_hits_keys).
  assert (NoDup (enemies g0)) as Nd0 by apply Hw0.
  assert (NoDup (enemies (snd r1))) as Nd1 by apply Hw1.
  pose proof (remove_ids_length _ _ Nd0 Sub1) as L1.
  pose proof (remove_ids_length _ _ Nd1 Sub2) as L2.
  rewrite <- E1 in N1, S1. rewrite <- E2 in N2, S2.
  rewrite <- N1 in L1. rewrite <- N2 in L2.
  assert (enemies (snd r2) = remove_ids (fst r1 ++ fst r2) (enemies g0)) as N12
    by (rewrite N2, N1; apply remove_ids_app).
  repeat apply conj.
  - rewrite Sg, S3, S2, S1, Hs0. lia.
  - exact Hs0.
  - rewrite Sg, S3, S2, S1, Hs0. lia.
  - now rewrite Ng, N3.
  - intros e He. apply elem_of_app in He as [He|He].
    + eapply elem_of_sublist; eassumption.
    + eapply elem_of_sublist in He; [|exact Sub2].
      rewrite N1 in He. now apply elem_of_remove_ids in He as [He _].
  - rewrite Ng, N3. lia.
  - exact S3.
  - exact N3.
Qed.

Lemma C1_score_witness :
  wf (start demo_assets demo_random)
  /\ SCORE (start demo_assets demo_random)
     <= SCORE (fst (tick demo_assets demo_random no_keys
                         (start demo_assets demo_random))).
Proof.
  split; [apply wf_start|].
  exact (proj1 (C1_score demo_assets demo_random no_keys
                         (start demo_assets demo_random)
                         (wf_start demo_assets demo_random))).
Defined.

Lemma filter_ext_in {X} (P Q : X -> Prop) `{!forall x, Decision (P x)}
      `{!forall x, Decision (Q x)} (l : list X) :
  (forall x, x ∈ l -> (P x <-> Q x)) -> filter P l = filter Q l.
Proof.
  intros Hext. induction l as [|a l IH]; [reflexivity|].
  rewrite !filter_cons.
  assert (P a <-> Q a) as Ha by (apply Hext; now left).
  rewrite IH by (intros x Hx; apply Hext; now right).
  destruct (decide (P a)), (decide (Q a)); tauto.
Qed.

Lemma hits_ext r g g' l :
  (forall j, j ∈ l -> rect_of g' j = rect_of g j) -> hits r g' l = hits r g l.
Proof.
  intros H. unfold hits. apply filter_ext_in. intros j Hj. now rewrite H.
Qed.

Lemma shot_hits_ext rect rect' es ss :
  (forall j, j ∈ es ++ ss -> rect' j = rect j) ->
  shot_hits rect' es ss = shot_hits rect es ss.
Proof.
  revert ss. induction es as [|e es IH]; intros ss H; [reflexivity|].
  cbn [shot_hits].
  assert (filter (fun s => Rect.colliderect (rect' e) (rect' s)) ss
          = filter (fun s => Rect.colliderect (rect e) (rect s)) ss) as ->.
  { apply filter_ext_in. intros s Hs.
    rewrite (H e) by (now left).
    rewrite (H s) by (apply elem_of_app; right; exact Hs). reflexivity. }
  destruct (filter _ ss) as [|c cs].
  - apply IH. intros j Hj. apply H. now right.
  - f_equal. apply IH. intros j Hj. apply H.
    apply elem_of_app in Hj as [Hj|Hj].
    + right. apply elem_of_app. now left.
    + right. apply elem_of_app. right.
      now apply elem_of_remove_ids in Hj as [Hj _].
Qed.

(** What each check reads, in terms of the state [g] the collision phase
    starts from: the first and the third check read the enemies and the enemy
    bullets of [g]; the second reads the shots of [g] and the enemies the
    first check has left. *)
Lemma checks_read A g :
  wf g ->
  let r1 := check_player_enemies A g in
  let r2 := check_shots_enemies A (snd r1) in
  let r3 := check_player_bullets A (snd r2) in
  fst r1 = hits (rect_of g player) g (enemies g)
  /\ enemies (snd r1) = remove_ids (fst r1) (enemies g)
  /\ fst r2 = map fst (shot_hits (rect_of g) (enemies (snd r1)) (shots g))
  /\ fst r3 = hits (rect_of g player) g (enemy_bullets g).
Proof.
  intros Hw r1 r2 r3.
  destruct (check_player_enemies_facts A g Hw) as (E1 & _ & N1 & Sh1 & B1).
  fold r1 in E1, N1, Sh1, B1.
  assert (wf (snd r1)) as Hw1 by now apply wf_check_player_enemies.
  destruct (check_shots_enemies_facts A (snd r1) Hw1) as (E2 & _ & _ & B2).
  fold r2 in E2, B2.
  assert (wf (snd r2)) as Hw2 by now apply wf_check_shots_enemies.
  destruct (check_player_bullets_eq A (snd r2) Hw2) as (E3 & _).
  fold r3 in E3.
  pose proof (extends_check_player_enemies A g) as X1. fold r1 in X1.
  pose proof (extends_check_shots_enemies A (snd r1)) as X2. fold r2 in X2.
  pose proof (extends_trans _ _ _ X1 X2) as X12.
  split; [exact E1|]. split; [now rewrite N1, E1|]. split.
  - rewrite E2, Sh1. f_equal. apply shot_hits_ext. intros j Hj.
    apply extends_rect_of; [exact X1|]. apply wf_member_lt; [exact Hw|].
    apply elem_of_app in Hj as [Hj|Hj]; [|tauto].
    rewrite N1 in Hj. apply elem_of_remove_ids in Hj. tauto.
  - rewrite E3, B2, B1.
    rewrite (extends_rect_of g (snd r2) player X12)
      by (apply wf_member_lt; auto).
    apply hits_ext. intros j Hj. apply extends_rect_of; [exact X12|].
    apply wf_member_lt; auto.
Qed.

(** C2. The collision phase is the three checks in the order player against
    enemies, shots against enemies, player against enemy bullets, each on the
    state the one before has left.  An enemy destroyed by the first check is
    gone at once: the second check runs on the remaining enemies, a
    population smaller by the number of enemies the first check destroyed,
    and does not report such an enemy. *)
Theorem C2_order_immediate A g :
  wf g ->
  let r1 := check_player_enemies A g in
  let r2 := check_shots_enemies A (snd r1) in
  let r3 := check_player_bullets A (snd r2) in
  collisions A g = snd r3
  /\ enemies (snd r1) = remove_ids (fst r1) (enemies g)
  /\ fst r2 = map fst (shot_hits (rect_of g) (enemies (snd r1)) (shots g))
  /\ (forall e, e ∈ fst r1 ->
        e ∈ enemies g /\ alive e (snd r1) = false
        /\ (e ∉ enemies (snd r1)) /\ (e ∉ fst r2))
  /\ (length (enemies (snd r1)) + length (fst r1) = length (enemies g))%nat.
Proof.
  intros Hw r1 r2 r3.
  destruct (checks_read A g Hw) as (E1 & N1 & E2 & _).
  fold r1 in E1, N1, E2. fold r2 in E2.
  assert (fst r1 `sublist_of` enemies g) as Sub1
    by (rewrite E1; apply hits_sublist).
  assert (forall e, e ∈ fst r1 -> e ∉ enemies (snd r1)) as Hgone.
  { intros e He Hin. rewrite N1 in Hin. apply elem_of_remove_ids in Hin. tauto. }
  split; [reflexivity|]. split; [exact N1|]. split; [exact E2|]. split.
  - intros e He. repeat apply conj.
    + eapply elem_of_sublist; eassumption.
    + unfold r1. rewrite check_player_enemies_eq. cbn [snd].
      rewrite E1 in He. apply player_enemy_fold_dead.
      * now apply dead_kill_all.
      * destruct (kill_all_frame (hits (rect_of g player) g (enemies g)) g) as (-> & _).
        apply wf_member_lt; [exact Hw|]. left.
        eapply elem_of_sublist; [exact He|apply hits_sublist].
    + now apply Hgone.
    + intros Hin. apply (Hgone e He). rewrite E2 in Hin.
      eapply elem_of_sublist; [exact Hin|apply shot_hits_keys].
  - rewrite N1. apply remove_ids_length; [apply Hw|exact Sub1].
Qed.

Lemma C2_order_immediate_witness :
  wf enemy_on_player_and_shot
  /\ (length (enemies (snd (check_player_enemies demo_assets
                              enemy_on_player_and_shot)))
      + length (fst (check_player_enemies demo_assets enemy_on_player_and_shot))
      = length (enemies enemy_on_player_and_shot))%nat.
Proof.
  assert (wf enemy_on_player_and_shot) as Hw
    by apply wf_before_collisions, wf_ticks, wf_start.
  split; [exact Hw|].
  exact (proj2 (proj2 (proj2 (proj2
    (C2_order_immediate demo_assets enemy_on_player_and_shot Hw))))).
Defined.




(** ** Drawing *)

Lemma draw_fold A g l d sd :
  fold_left (draw_step A g) l (d, sd)
  = (d ++ flat_map (fun e => dirty_of (snd e) (drawn_rect A g (fst e))) l,
     sd ++ map (fun e => (fst e, Some (drawn_rect A g (fst e)))) l).
Proof.
  revert d sd. induction l as [|e l IH]; intros d sd; simpl.
  - now rewrite !app_nil_r.
  - unfold draw_step at 2. cbn [fst snd].
    fold (drawn_rect A g (fst e)). rewrite IH, <- !app_assoc. reflexivity.
Qed.

(** [all.draw]: the list it returns and the rectangles it records. *)
Lemma all_draw_spec A g :
  fst (all_draw A g)
  = lostsprites g
    ++ flat_map (fun e => dirty_of (snd e) (drawn_rect A g (fst e))) (all g)
  /\ all (snd (all_draw A g))
     = map (fun e => (fst e, Some (drawn_rect A g (fst e)))) (all g).
Proof. unfold all_draw. rewrite draw_fold. simpl. tauto. Qed.

Lemma union_same r : Rect.union r r = r.
Proof.
  destruct r as [x y w h]. unfold Rect.union. simpl.
  rewrite !Z.min_id, !Z.max_id. f_equal; lia.
Qed.

Lemma colliderect_same r : Rect.nonzero r = true -> Rect.colliderect r r = true.
Proof.
  intros H. unfold Rect.colliderect. rewrite H. simpl.
  unfold Rect.nonzero in H. apply andb_true_iff in H as [Hw Hh].
  apply negb_true_iff, Z.eqb_neq in Hw, Hh.
  rewrite !andb_true_iff, !Z.ltb_lt. lia.
Qed.

(** A member drawn where it was drawn last contributes its rectangle,
    once. *)
Lemma dirty_of_same r : dirty_of (Some r) r = [r].
Proof.
  unfold dirty_of. destruct (Rect.nonzero r) eqn:E; [|reflexivity].
  now rewrite colliderect_same, union_same.
Qed.

Lemma dirty_of_length old new : (1 <= length (dirty_of old new))%nat.
Proof.
  unfold dirty_of. destruct old as [r|]; [|simpl; lia].
  destruct (Rect.nonzero r); [|simpl; lia].
  destruct (Rect.colliderect new r); simpl; lia.
Qed.

Lemma dirty_length A g (l : list (nat * option Rect)) :
  (length l
   <= length (flat_map (fun e => dirty_of (snd e) (drawn_rect A g (fst e))) l))%nat.
Proof.
  induction l as [|e l IH]; [reflexivity|].
  cbn [flat_map]. rewrite length_app.
  pose proof (dirty_of_length (snd e) (drawn_rect A g (fst e))).
  cbn [length]. lia.
Qed.

Lemma all_ids_draw A g : all_ids (snd (all_draw A g)) = all_ids g.
Proof.
  unfold all_ids. destruct (all_draw_spec A g) as [_ ->].
  rewrite map_map. reflexivity.
Qed.

Lemma drawn_rect_shown A g g' id :
  shown g' id = shown g id -> drawn_rect A g' id = drawn_rect A g id.
Proof.
  unfold shown, drawn_rect, blit_rect.
  destruct (heap g' !! id) as [s'|], (heap g !! id) as [s|]; simpl;
    intros H; try discriminate; [|reflexivity].
  injection H as -> ->. reflexivity.
Qed.

(** After a draw every member is recorded at the rectangle it was drawn
    at. *)
Lemma recorded_after_tick A random i g :
  Forall (fun e => snd e = Some (drawn_rect A (fst (tick A random i g)) (fst e)))
         (all (fst (tick A random i g))).
Proof.
  rewrite tick_eq. cbn [fst].
  destruct (all_draw_spec A (before_draw A random i g)) as [_ Ha].
  destruct (all_draw_frame A (before_draw A random i g)) as (Hh & _).
  rewrite Ha. apply Forall_forall. intros e He.
  apply list_elem_of_fmap in He as (e0 & -> & _). cbn [fst snd].
  unfold drawn_rect. now rewrite Hh.
Qed.

Lemma elem_of_all_ids e g : e ∈ all g -> fst e ∈ all_ids g.
Proof.
  intros He. unfold all_ids. apply list_elem_of_fmap. exists e.
  split; [reflexivity|exact He].
Qed.

Lemma dirty_one A g (l : list (nat * option Rect)) :
  Forall (fun e => dirty_of (snd e) (drawn_rect A g (fst e))
                   = [drawn_rect A g (fst e)]) l ->
  flat_map (fun e => dirty_of (snd e) (drawn_rect A g (fst e))) l
  = map (drawn_rect A g) (map fst l).
Proof.
  intros H. induction H as [|e l He Hl IH]; [reflexivity|].
  cbn [flat_map map]. rewrite IH, He. reflexivity.
Qed.

(** ** The render group through a pass *)

Lemma kept_all_refl g : kept_all g g.
Proof. split; [tauto|]. apply Forall_forall. intros e He. now left. Qed.

Lemma kept_all_trans g1 g2 g3 : kept_all g1 g2 -> kept_all g2 g3 -> kept_all g1 g3.
Proof.
  intros [N1 F1] [N2 F2]. split; [tauto|].
  rewrite Forall_forall in *. intros e He.
  destruct (F2 e He) as [H|H]; [now apply F1|now right].
Qed.

Lemma kept_all_same g g' : all g' = all g -> kept_all g g'.
Proof.
  intros H. unfold kept_all, all_ids. rewrite H. exact (kept_all_refl g).
Qed.

Lemma kept_all_kill id g : kept_all g (kill id g).
Proof.
  split.
  - rewrite all_ids_kill. apply NoDup_filter.
  - apply Forall_forall. intros e He. left. simpl in He.
    now apply list_elem_of_filter in He as [_ He].
Qed.

Lemma kept_all_add id g g' : all g' = add_all id (all g) -> kept_all g g'.
Proof.
  intros H. split.
  - unfold all_ids. rewrite H, all_ids_add. apply NoDup_add_id.
  - rewrite H. unfold add_all. destruct (decide _) as [Hin|Hout].
    + apply Forall_forall. intros e He. now left.
    + apply Forall_app. split.
      * apply Forall_forall. intros e He. now left.
      * apply Forall_singleton. now right.
Qed.

Lemma kept_all_fold {X} (f : Game -> X -> Game) l g :
  (forall g x, kept_all g (f g x)) -> kept_all g (fold_left f l g).
Proof.
  intros Hf. apply (fold_left_inv (kept_all g)); [apply kept_all_refl|].
  intros s x Hs. eapply kept_all_trans; [exact Hs|apply Hf].
Qed.

Lemma kept_all_update_one A g id : kept_all g (update_one A g id).
Proof.
  unfold update_one. destruct (heap g !! id); [|apply kept_all_refl].
  destruct (update_sprite _ _ _) as [s' k]. destruct k.
  - eapply kept_all_trans; [|apply kept_all_kill]. now apply kept_all_same.
  - now apply kept_all_same.
Qed.

Lemma kept_all_all_update A g : kept_all g (all_update A g).
Proof. apply kept_all_fold. intros g' x. apply kept_all_update_one. Qed.

Lemma kept_all_handle_input A i g : kept_all g (handle_input A i g).
Proof.
  unfold handle_input.
  destruct (heap g !! player) as [[p| | | | |]|]; try apply kept_all_refl.
  cbv zeta. eapply kept_all_trans; [|apply kept_all_same; reflexivity].
  destruct (fires _ _ _).
  - now apply (kept_all_add (length (<[player:=APlayer (Player.move p (direction i))]> (heap g)))).
  - now apply kept_all_same.
Qed.

Lemma kept_all_create_enemy A random g : kept_all g (create_enemy A random g).
Proof.
  unfold create_enemy. destruct (negb _); [now apply kept_all_same|].
  cbn [draw_sample]. destruct (scaled _ _ =? 0); [|now apply kept_all_same].
  now apply (kept_all_add (length (heap g))).
Qed.

Lemma kept_all_shoot_enemy_bullets A random g :
  kept_all g (shoot_enemy_bullets A random g).
Proof.
  unfold shoot_enemy_bullets. destruct (lastenemy g); [|apply kept_all_refl].
  cbn [draw_sample]. destruct (scaled _ _ =? 0); [|now apply kept_all_same].
  now apply (kept_all_add (length (heap g))).
Qed.

Lemma kept_all_kill_all ids g : kept_all g (kill_all ids g).
Proof. apply kept_all_fold. intros g' x. apply kept_all_kill. Qed.

Lemma kept_all_spritecollide r n g : kept_all g (snd (spritecollide r n g)).
Proof. rewrite spritecollide_spec. apply kept_all_kill_all. Qed.

Lemma kept_all_groupcollide g : kept_all g (snd (groupcollide g)).
Proof.
  unfold groupcollide.
  apply (fold_left_inv (fun acc => kept_all g (snd acc))); [apply kept_all_refl|].
  intros [c g'] a Hg'. unfold groupcollide_step. cbn [fst snd] in *.
  pose proof (kept_all_spritecollide (rect_of g' a) Shots g') as H1.
  destruct (spritecollide (rect_of g' a) Shots g') as [col g1]. cbn [snd] in H1.
  eapply kept_all_trans; [exact Hg'|].
  destruct col; cbn [snd]; [exact H1|].
  eapply kept_all_trans; [exact H1|apply kept_all_kill].
Qed.

Lemma kept_all_new_Explosion A r g : kept_all g (new_Explosion A r g).
Proof. now apply (kept_all_add (length (heap g))). Qed.

Lemma kept_all_player_enemy_body A g e : kept_all g (player_enemy_body A g e).
Proof.
  unfold player_enemy_body. cbv zeta.
  set (g1 := new_Explosion A (rect_of g e) g).
  set (g2 := new_Explosion A (rect_of g1 player) g1).
  apply (kept_all_trans g g1); [apply kept_all_new_Explosion|].
  apply (kept_all_trans g1 g2); [apply kept_all_new_Explosion|].
  apply (kept_all_trans g2 (set_SCORE g2 (SCORE g2 + 1)));
    [now apply kept_all_same|apply kept_all_kill].
Qed.

Lemma kept_all_shot_enemy_body A g e : kept_all g (shot_enemy_body A g e).
Proof.
  unfold shot_enemy_body. cbv zeta.
  apply (kept_all_trans g (new_Explosion A (rect_of g e) g));
    [apply kept_all_new_Explosion|now apply kept_all_same].
Qed.

Lemma kept_all_player_bullet_body A g e : kept_all g (player_bullet_body A g e).
Proof.
  unfold player_bullet_body. cbv zeta.
  apply (kept_all_trans g (new_Explosion A (rect_of g player) g));
    [apply kept_all_new_Explosion|apply kept_all_kill].
Qed.

Lemma kept_all_check_player_enemies A g :
  kept_all g (snd (check_player_enemies A g)).
Proof.
  unfold check_player_enemies.
  pose proof (kept_all_spritecollide (rect_of g player) Enemies g) as H.
  destruct (spritecollide _ _ _) as [c g1]. cbn [snd] in *.
  eapply kept_all_trans; [exact H|].
  apply kept_all_fold, kept_all_player_enemy_body.
Qed.

Lemma kept_all_check_shots_enemies A g :
  kept_all g (snd (check_shots_enemies A g)).
Proof.
  unfold check_shots_enemies.
  pose proof (kept_all_groupcollide g) as H.
  destruct (groupcollide g) as [c g1]. cbn [snd] in *.
  eapply kept_all_trans; [exact H|].
  apply kept_all_fold, kept_all_shot_enemy_body.
Qed.

Lemma kept_all_check_player_bullets A g :
  kept_all g (snd (check_player_bullets A g)).
Proof.
  unfold check_player_bullets.
  pose proof (kept_all_spritecollide (rect_of g player) EnemyBullets g) as H.
  destruct (spritecollide _ _ _) as [c g1]. cbn [snd] in *.
  eapply kept_all_trans; [exact H|].
  apply kept_all_fold, kept_all_player_bullet_body.
Qed.

Lemma kept_all_before_draw A random i g : kept_all g (before_draw A random i g).
Proof.
  unfold before_draw, collisions, before_collisions.
  eapply kept_all_trans; [apply kept_all_all_update|].
  eapply kept_all_trans; [apply kept_all_handle_input|].
  eapply kept_all_trans; [apply kept_all_create_enemy|].
  eapply kept_all_trans; [apply kept_all_shoot_enemy_bullets|].
  eapply kept_all_trans; [apply kept_all_check_player_enemies|].
  eapply kept_all_trans; [apply kept_all_check_shots_enemies|].
  apply kept_all_check_player_bullets.
Qed.

Lemma NoDup_all_ids_tick A random i g :
  NoDup (all_ids g) -> NoDup (all_ids (fst (tick A random i g))).
Proof.
  intros H. rewrite tick_eq. cbn [fst]. rewrite all_ids_draw.
  now apply (kept_all_before_draw A random i g).
Qed.

Lemma NoDup_all_ids_start A random : NoDup (all_ids (start A random)).
Proof.
  unfold start. destruct (font_available A); vm_compute;
    repeat constructor; rewrite ?elem_of_cons, ?elem_of_nil; intuition discriminate.
Qed.

Lemma NoDup_all_ids_ticks A random inputs g :
  NoDup (all_ids g) -> NoDup (all_ids (ticks A random inputs g)).
Proof.
  intros H. unfold ticks. apply fold_left_inv; [exact H|].
  intros s x. apply NoDup_all_ids_tick.
Qed.

(** ** Animation *)

(** C8, as stated, fails for the explosion: its counter is the remaining
    life, which [update] decrements; a fresh explosion goes from 12 to 11 and
    shows frame 1, where an incremented counter would give frame 0. *)
Lemma C8_explosion_counts_down :
  Explosion.life fresh_explosion = 12
  /\ Explosion.life (fst (Explosion.update fresh_explosion)) = 11
  /\ Explosion.image (fst (Explosion.update fresh_explosion)) = 1
  /\ ~ animates (Explosion.life fresh_explosion)
                (Explosion.life (fst (Explosion.update fresh_explosion)))
                (Explosion.image (fst (Explosion.update fresh_explosion)))
                Explosion.animcycle 2.
Proof.
  repeat split; try reflexivity.
  intros [H _]. vm_compute in H. discriminate.
Qed.

Lemma update_one_other A g j id :
  id <> j -> heap (update_one A g j) !! id = heap g !! id.
Proof.
  intros Hne. unfold update_one. destruct (heap g !! j) as [s|]; [|reflexivity].
  destruct (update_sprite _ _ _) as [s' k].
  assert (heap (set_heap g (<[j:=s']> (heap g))) !! id = heap g !! id) as H
    by (simpl; now rewrite list_lookup_insert_ne by congruence).
  destruct k; exact H.
Qed.

Lemma update_one_self A g id s :
  heap g !! id = Some s ->
  heap (update_one A g id) !! id = Some (fst (update_sprite A (SCORE g) s)).
Proof.
  intros Hs. unfold update_one. rewrite Hs.
  destruct (update_sprite _ _ _) as [s' k]. cbn [fst].
  assert (heap (set_heap g (<[id:=s']> (heap g))) !! id = Some s') as H.
  { simpl. apply list_lookup_insert_eq. eapply lookup_lt_Some; eassumption. }
  destruct k; exact H.
Qed.

Lemma all_update_others A l g id :
  id ∉ l -> heap (fold_left (update_one A) l g) !! id = heap g !! id.
Proof.
  revert g. induction l as [|j l IH]; intros g Hn; [reflexivity|].
  apply not_elem_of_cons in Hn as [Hne Hn]. cbn [fold_left].
  rewrite IH by exact Hn. now apply update_one_other.
Qed.

(** [all.update()] calls the [update] method of every member once. *)
Lemma all_update_member A l g id s :
  NoDup l -> id ∈ l -> heap g !! id = Some s ->
  heap (fold_left (update_one A) l g) !! id
  = Some (fst (update_sprite A (SCORE g) s)).
Proof.
  intros Hnd. revert g. induction Hnd as [|j l Hj Hnd IH]; intros g Hin Hs.
  - now apply elem_of_nil in Hin.
  - cbn [fold_left]. destruct (decide (id = j)) as [->|Hne].
    + rewrite all_update_others by exact Hj. now apply update_one_self.
    + apply elem_of_cons in Hin as [Heq|Hin]; [congruence|].
      rewrite (IH (update_one A g j) Hin).
      * now rewrite update_one_SCORE.
      * rewrite update_one_other by exact Hne. exact Hs.
Qed.

(** A pass on a member of the render group other than the player: its
    [update] method is called once, and nothing else touches it. *)
Lemma tick_updates_member A random i g id s :
  NoDup (all_ids g) -> id ∈ all_ids g -> id <> player ->
  heap g !! id = Some s ->
  heap (fst (tick A random i g)) !! id
  = Some (fst (update_sprite A (SCORE g) s)).
Proof.
  intros Hnd Hin Hne Hs.
  eapply extends_lookup; [apply extends_after_input|].
  apply handle_input_other; [exact Hne|].
  now apply all_update_member.
Qed.

(** A pass on the player: [update], then [move], then the reload lock. *)
Lemma tick_updates_player A random i g p :
  NoDup (all_ids g) -> player ∈ all_ids g ->
  heap g !! player = Some (APlayer p) ->
  heap (fst (tick A random i g)) !! player
  = Some (APlayer (Player.set_reloading
                     (Player.move (Player.update p) (direction i)) (K_SPACE i))).
Proof.
  intros Hnd Hin Hp.
  eapply extends_lookup; [apply extends_after_input|].
  apply handle_input_player.
  exact (all_update_member A (all_ids g) g player (APlayer p) Hnd Hin Hp).
Qed.

(** C8, amended. On each pass of a session, for every member of the render
    group at the start of the pass: the frame counter of the player and of
    an enemy goes up by one and the image index is set to
    [(frame // 12) mod frameCount] (3 frames for the player, 1 for an
    enemy), where the player's [move] later in the same pass replaces the
    index by 0 for a negative and by 1 for a positive direction; an explosion
    has no frame counter: its remaining life goes down by one and its index
    is set to [(life // 3) mod 2]. *)
Theorem C8_animation A random inputs i :
  let g := ticks A random inputs (start A random) in
  let g' := fst (tick A random i g) in
  (forall p,
      player ∈ all_ids g -> heap g !! player = Some (APlayer p) ->
      exists p',
        heap g' !! player = Some (APlayer p')
        /\ Player.frame p' = Player.frame p + 1
        /\ Player.image p'
           = if direction i <? 0 then 0
             else if 0 <? direction i then 1
             else (Player.frame p' / 12) mod 3)
  /\ (forall id e,
      id ∈ all_ids g -> heap g !! id = Some (AnEnemy e) ->
      exists e',
        heap g' !! id = Some (AnEnemy e')
        /\ animates (Enemy.frame e) (Enemy.frame e') (Enemy.image e') 12 1)
  /\ (forall id x,
      id ∈ all_ids g -> heap g !! id = Some (AnExplosion x) ->
      exists x',
        heap g' !! id = Some (AnExplosion x')
        /\ Explosion.life x' = Explosion.life x - 1
        /\ Explosion.image x' = (Explosion.life x' / 3) mod 2).
Proof.
  intros g g'.
  assert (NoDup (all_ids g)) as Hnd
    by apply NoDup_all_ids_ticks, NoDup_all_ids_start.
  assert (wf g) as Hw by apply wf_ticks, wf_start.
  destruct (wf_player g Hw) as [p0 Hp0].
  split; [|split].
  - intros p Hin Hp. eexists. split.
    + exact (tick_updates_player A random i g p Hnd Hin Hp).
    + split; [reflexivity|]. cbn [Player.set_reloading Player.image Player.move
                                   Player.frame Player.update].
      reflexivity.
  - intros id e Hin He.
    assert (id <> player) as Hne by (intros ->; congruence).
    exists (fst (Enemy.update e)). split.
    + unfold g'. rewrite (tick_updates_member A random i g id _ Hnd Hin Hne He).
      cbn [update_sprite]. now destruct (Enemy.update e).
    + split; reflexivity.
  - intros id x Hin Hx.
    assert (id <> player) as Hne by (intros ->; congruence).
    exists (fst (Explosion.update x)). split.
    + unfold g'. rewrite (tick_updates_member A random i g id _ Hnd Hin Hne Hx).
      cbn [update_sprite]. now destruct (Explosion.update x).
    + split; reflexivity.
Qed.

Lemma C8_animation_witness :
  5%nat ∈ all_ids newest_shot_down
  /\ heap newest_shot_down !! 5%nat
     = Some (AnExplosion (Explosion.mk 0 (mkRect 328 109 32 32) 12))
  /\ exists x',
      heap (fst (tick demo_assets demo_random no_keys newest_shot_down)) !! 5%nat
      = Some (AnExplosion x')
      /\ Explosion.life x' = 12 - 1
      /\ Explosion.image x' = (Explosion.life x' / 3) mod 2.
Proof.
  unfold newest_shot_down.
  set (g := ticks _ _ _ _).
  assert (5%nat ∈ all_ids g) as Hin
    by (vm_compute; repeat constructor).
  assert (heap g !! 5%nat
          = Some (AnExplosion (Explosion.mk 0 (mkRect 328 109 32 32) 12))) as Hx
    by (vm_compute; reflexivity).
  split; [exact Hin|]. split; [exact Hx|].
  pose proof (proj2 (proj2 (C8_animation demo_assets demo_random
           (replicate 14 no_keys ++ [fire_key] ++ replicate 26 no_keys) no_keys))
           5%nat (Explosion.mk 0 (mkRect 328 109 32 32) 12)) as H.
  cbv zeta in H. fold g in H.
  exact (H Hin Hx).
Defined.

(** ** The dirty rectangles *)

(** C9, as stated, fails: in this session only the player and the score
    line are left; over the next pass neither moves nor changes its image,
    and yet the list handed to [display.update] holds both rectangles. *)
Lemma C9_unchanged_scene_is_redrawn :
  quiet_scene
  = fst (tick demo_assets left_edge_random no_keys
              (ticks demo_assets left_edge_random (replicate 102 no_keys)
                     (start demo_assets left_edge_random)))
  /\ scene (fst (tick demo_assets left_edge_random no_keys quiet_scene))
     = scene quiet_scene
  /\ snd (tick demo_assets left_edge_random no_keys quiet_scene)
     = [mkRect 288 440 64 40; mkRect 10 450 70 14]
  /\ snd (tick demo_assets left_edge_random no_keys quiet_scene) <> [].
Proof.
  repeat apply conj; vm_compute; congruence.
Qed.

(** C9, amended. For two consecutive passes, the list handed to
    [display.update] by the second one starts with the last rectangles of
    the members removed during that pass and holds at least one rectangle
    for every member of the render group; it is empty only if there is
    neither a member nor a removed one.  After the first pass every member
    is recorded at the rectangle it was drawn at.  If every member drawn by
    both passes has the same rectangle and the same image at both draws (no
    actor moved or changed its frame between them), the list of the second
    pass is the removed rectangles followed by exactly one rectangle per
    member, the part of it on the screen; a member created during the second
    pass has its one rectangle, too. *)
Theorem C9_dirty_rectangles A random i1 i2 g0 :
  let g1 := fst (tick A random i1 g0) in
  let g2 := before_draw A random i2 g1 in
  snd (tick A random i2 g1) = fst (all_draw A g2)
  /\ (length (lostsprites g2) + length (all g2)
      <= length (snd (tick A random i2 g1)))%nat
  /\ (snd (tick A random i2 g1) = [] -> lostsprites g2 = [] /\ all g2 = [])
  /\ Forall (fun e => snd e = Some (drawn_rect A g1 (fst e))) (all g1)
  /\ (Forall (fun id => id ∈ all_ids g1 -> shown g2 id = shown g1 id)
             (all_ids g2) ->
      snd (tick A random i2 g1)
      = lostsprites g2 ++ map (drawn_rect A g2) (all_ids g2)).
Proof.
  intros g1 g2. rewrite (tick_eq A random i2 g1). cbn [fst snd]. fold g2.
  destruct (all_draw_spec A g2) as [Hd _].
  pose proof (dirty_length A g2 (all g2)) as Hlen.
  pose proof (recorded_after_tick A random i1 g0) as Hrec. fold g1 in Hrec.
  split; [reflexivity|]. split; [|split; [|split]].
  - rewrite Hd, length_app. lia.
  - intros He. rewrite Hd in He. apply app_eq_nil in He as [Hl Hf].
    split; [exact Hl|]. rewrite Hf in Hlen. cbn [length] in Hlen.
    destruct (all g2); [reflexivity|cbn [length] in Hlen; lia].
  - exact Hrec.
  - intros Hsame. rewrite Hd. f_equal. apply dirty_one.
    destruct (kept_all_before_draw A random i2 g1) as [_ Hk]. fold g2 in Hk.
    rewrite Forall_forall in Hk. rewrite Forall_forall in Hsame.
    rewrite Forall_forall in Hrec. apply Forall_forall.
    intros e He. destruct (Hk e He) as [Hold|Hnew].
    + pose proof (elem_of_all_ids e g1 Hold) as H1.
      pose proof (elem_of_all_ids e g2 He) as H2.
      rewrite (Hrec e Hold).
      rewrite (drawn_rect_shown A g1 g2 (fst e) (Hsame _ H2 H1)).
      apply dirty_of_same.
    + rewrite Hnew. reflexivity.
Qed.

Lemma C9_dirty_rectangles_witness :
  Forall (fun id =>
            id ∈ all_ids (fst (tick demo_assets left_edge_random no_keys quiet_before)) ->
            shown (before_draw demo_assets left_edge_random fire_key
                     (fst (tick demo_assets left_edge_random no_keys quiet_before))) id
            = shown (fst (tick demo_assets left_edge_random no_keys quiet_before)) id)
         (all_ids (before_draw demo_assets left_edge_random fire_key
                     (fst (tick demo_assets left_edge_random no_keys quiet_before))))
  /\ snd (tick demo_assets left_edge_random fire_key
               (fst (tick demo_assets left_edge_random no_keys quiet_before)))
     = [mkRect 288 440 64 40; mkRect 10 450 70 14; mkRect 327 424 8 16].
Proof.
  set (g1 := fst (tick demo_assets left_edge_random no_keys quiet_before)).
  set (g2 := before_draw demo_assets left_edge_random fire_key g1).
  assert (Forall (fun id => id ∈ all_ids g1 -> shown g2 id = shown g1 id)
                 (all_ids g2)) as H
    by (apply (bool_decide_unpack _); vm_compute; exact I).
  split; [exact H|].
  pose proof (C9_dirty_rectangles demo_assets left_edge_random no_keys fire_key
                quiet_before) as HT.
  cbv zeta in HT. fold g1 in HT. fold g2 in HT.
  destruct HT as (_ & _ & _ & _ & HT).
  rewrite (HT H).
  vm_compute. reflexivity.
Defined.

(** * Further properties of the program *)

(** ** A killed sprite never comes back *)

Lemma gone_kill id j g : gone id g -> gone id (kill j g).
Proof. intros [Hd Hl]. split; [now apply dead_kill|exact Hl]. Qed.

Lemma gone_kill_all id ids g : gone id g -> gone id (kill_all ids g).
Proof.
  intros H. unfold kill_all. apply fold_left_inv; [exact H|].
  intros s x. apply gone_kill.
Qed.

Lemma gone_insert id j s g :
  gone id g -> gone id (set_heap g (<[j := s]> (heap g))).
Proof. intros [Hd Hl]. split; [exact Hd|]. simpl. now rewrite length_insert. Qed.

Lemma gone_groups id g g' :
  gone id g ->
  (forall j, j ∈ enemies g' -> j ∈ enemies g \/ j = length (heap g)) ->
  (forall j, j ∈ shots g' -> j ∈ shots g \/ j = length (heap g)) ->
  (forall j, j ∈ enemy_bullets g' -> j ∈ enemy_bullets g \/ j = length (heap g)) ->
  (forall j, j ∈ all_ids g' -> j ∈ all_ids g \/ j = length (heap g)) ->
  lastenemy g' = lastenemy g \/ lastenemy g' = Some (length (heap g)) ->
  (length (heap g) <= length (heap g'))%nat ->
  gone id g'.
Proof.
  intros [Hd Hl] He Hs Hb Ha Hlast Hlen.
  apply alive_false in Hd as (De & Ds & Db & Da & Dl).
  split; [|lia]. apply alive_false. repeat apply conj.
  - intros Hin. apply He in Hin as [Hin|Hin]; [tauto|lia].
  - intros Hin. apply Hs in Hin as [Hin|Hin]; [tauto|lia].
  - intros Hin. apply Hb in Hin as [Hin|Hin]; [tauto|lia].
  - intros Hin. apply Ha in Hin as [Hin|Hin]; [tauto|lia].
  - destruct Hlast as [->| ->]; [exact Dl|]. intros [= E]. lia.
Qed.

Lemma all_ids_new j (l : list (nat * option Rect)) n :
  j ∈ map fst (add_all n l) -> j ∈ map fst l \/ j = n.
Proof. rewrite all_ids_add. apply elem_of_add_id'. Qed.

Ltac gone_new H :=
  apply (gone_groups _ _ _ H); unfold all_ids; simpl;
  try (intros j Hj;
       first [ now left
             | apply elem_of_add_id' in Hj; exact Hj
             | apply all_ids_new in Hj; exact Hj ]);
  try (now left); try (now right); try (rewrite length_app; simpl; lia).

Lemma gone_new_Explosion A r id g : gone id g -> gone id (new_Explosion A r g).
Proof. intros H. gone_new H. Qed.

Lemma gone_new_Shot A pos id g : gone id g -> gone id (new_Shot A pos g).
Proof. intros H. gone_new H. Qed.

Lemma gone_new_EnemyBullet A r id g :
  gone id g -> gone id (new_EnemyBullet A r g).
Proof. intros H. gone_new H. Qed.

Lemma gone_new_Enemy A random id g : gone id g -> gone id (new_Enemy A random g).
Proof. intros H. gone_new H. Qed.

Lemma gone_same id g g' :
  gone id g -> heap g' = heap g -> enemies g' = enemies g ->
  shots g' = shots g -> enemy_bullets g' = enemy_bullets g ->
  all_ids g' = all_ids g -> lastenemy g' = lastenemy g -> gone id g'.
Proof.
  intros [Hd Hl] Hh He Hs Hb Ha Hlast. split; [|now rewrite Hh].
  unfold alive in *. now rewrite He, Hs, Hb, Ha, Hlast.
Qed.

Lemma gone_update_one A id g j : gone id g -> gone id (update_one A g j).
Proof.
  intros H. unfold update_one. destruct (heap g !! j); [|exact H].
  destruct (update_sprite _ _ _) as [s' k].
  destruct k; [apply gone_kill|]; now apply gone_insert.
Qed.

Lemma gone_all_update A id g : gone id g -> gone id (all_update A g).
Proof.
  intros H. unfold all_update. apply fold_left_inv; [exact H|].
  intros s x. apply gone_update_one.
Qed.

Lemma gone_handle_input A i id g : gone id g -> gone id (handle_input A i g).
Proof.
  intros H. unfold handle_input.
  destruct (heap g !! player) as [[p| | | | |]|]; try exact H.
  apply gone_insert. destruct (fires _ _ _).
  - now apply gone_new_Shot, gone_insert.
  - now apply gone_insert.
Qed.

Lemma gone_create_enemy A random id g :
  gone id g -> gone id (create_enemy A random g).
Proof.
  intros H. unfold create_enemy. destruct (negb _).
  - now apply (gone_same id g).
  - cbn [draw_sample]. set (g1 := mkGame _ _ _ _ _ _ _ _ _ _).
    assert (gone id g1) as H1 by now apply (gone_same id g).
    destruct (scaled _ _ =? 0); [|exact H1].
    apply (gone_same id (new_Enemy A random g1)); try reflexivity.
    now apply gone_new_Enemy.
Qed.

Lemma gone_shoot_enemy_bullets A random id g :
  gone id g -> gone id (shoot_enemy_bullets A random g).
Proof.
  intros H. unfold shoot_enemy_bullets. destruct (lastenemy g); [|exact H].
  cbn [draw_sample]. set (g1 := mkGame _ _ _ _ _ _ _ _ _ _).
  assert (gone id g1) as H1 by now apply (gone_same id g).
  destruct (scaled _ _ =? 0); [|exact H1].
  now apply gone_new_EnemyBullet.
Qed.

Lemma gone_spritecollide r n id g :
  gone id g -> gone id (snd (spritecollide r n g)).
Proof. intros H. rewrite spritecollide_spec. now apply gone_kill_all. Qed.

Lemma gone_groupcollide id g : gone id g -> gone id (snd (groupcollide g)).
Proof.
  intros H. unfold groupcollide.
  apply (fold_left_inv (fun acc => gone id (snd acc))); [exact H|].
  intros [c g'] a Hg'. unfold groupcollide_step. cbn [fst snd] in *.
  pose proof (gone_spritecollide (rect_of g' a) Shots id g' Hg') as H1.
  destruct (spritecollide (rect_of g' a) Shots g') as [col g1]. cbn [snd] in H1.
  destruct col; cbn [snd]; [exact H1|now apply gone_kill].
Qed.

Lemma gone_player_enemy_body A id g e :
  gone id g -> gone id (player_enemy_body A g e).
Proof.
  intros H. unfold player_enemy_body. apply gone_kill.
  eapply gone_same; [|reflexivity..].
  now apply gone_new_Explosion, gone_new_Explosion.
Qed.

Lemma gone_shot_enemy_body A id g e :
  gone id g -> gone id (shot_enemy_body A g e).
Proof.
  intros H. unfold shot_enemy_body.
  eapply gone_same; [|reflexivity..]. now apply gone_new_Explosion.
Qed.

Lemma gone_player_bullet_body A id g e :
  gone id g -> gone id (player_bullet_body A g e).
Proof.
  intros H. unfold player_bullet_body. now apply gone_kill, gone_new_Explosion.
Qed.

Lemma gone_check_player_enemies A id g :
  gone id g -> gone id (snd (check_player_enemies A g)).
Proof.
  intros H. unfold check_player_enemies.
  pose proof (gone_spritecollide (rect_of g player) Enemies id g H) as H1.
  destruct (spritecollide _ _ _) as [c g1]. cbn [snd] in *.
  apply fold_left_inv; [exact H1|]. intros s x. apply gone_player_enemy_body.
Qed.

Lemma gone_check_shots_enemies A id g :
  gone id g -> gone id (snd (check_shots_enemies A g)).
Proof.
  intros H. unfold check_shots_enemies.
  pose proof (gone_groupcollide id g H) as H1.
  destruct (groupcollide g) as [c g1]. cbn [snd] in *.
  apply fold_left_inv; [exact H1|]. intros s x. apply gone_shot_enemy_body.
Qed.

Lemma gone_check_player_bullets A id g :
  gone id g -> gone id (snd (check_player_bullets A g)).
Proof.
  intros H. unfold check_player_bullets.
  pose proof (gone_spritecollide (rect_of g player) EnemyBullets id g H) as H1.
  destruct (spritecollide _ _ _) as [c g1]. cbn [snd] in *.
  apply fold_left_inv; [exact H1|]. intros s x. apply gone_player_bullet_body.
Qed.

Lemma gone_all_draw A id g : gone id g -> gone id (snd (all_draw A g)).
Proof.
  intros H. destruct (all_draw_frame A g) as (Hh & He & Hs & Hb & Hl & _).
  apply (gone_same id g); try assumption. apply all_ids_draw.
Qed.

Lemma gone_tick A random i id g :
  gone id g -> gone id (fst (tick A random i g)).
Proof.
  intros H. rewrite tick_eq. cbn [fst].
  apply gone_all_draw. unfold before_draw, collisions, before_collisions.
  now apply gone_check_player_bullets, gone_check_shots_enemies,
    gone_check_player_enemies, gone_shoot_enemy_bullets, gone_create_enemy,
    gone_handle_input, gone_all_update.
Qed.

(** Destruction is final: an object that has been created and is in no
    group is in no group after any number of further passes. *)
Theorem killed_stays_dead A random inputs id g :
  (id < length (heap g))%nat -> alive id g = false ->
  alive id (ticks A random inputs g) = false.
Proof.
  intros Hl Hd.
  assert (gone id (ticks A random inputs g)) as [H _]; [|exact H].
  unfold ticks. apply fold_left_inv; [now split|].
  intros s x. apply gone_tick.
Qed.

(** ** The player dies through a collision, and only so *)

Lemma wf_alive_player g : wf g -> (alive player g = true <-> player ∈ all_ids g).
Proof.
  intros Hw. destruct (wf_player_notin g Hw) as (He & Hs & Hb).
  split; [|apply alive_in_all].
  unfold alive. rewrite !orb_true_iff, !bool_decide_eq_true.
  intros [[[[H|H]|H]|H]|H]; try tauto.
  exfalso. destruct Hw as (_ & _ & _ & _ & _ & Hl). rewrite Hl in H.
  destruct (newest_enemy g) as [e|]; [|discriminate]. simpl in H.
  destruct (decide (e ∈ enemies g)); [|discriminate].
  injection H as ->. tauto.
Qed.

Lemma all_ids_kill_all ids g :
  all_ids (kill_all ids g) = remove_ids ids (all_ids g).
Proof.
  revert g. induction ids as [|a ids IH]; intros g.
  - simpl. now rewrite remove_ids_nil.
  - simpl. fold (kill_all ids (kill a g)).
    now rewrite IH, all_ids_kill, remove_ids_cons.
Qed.

Lemma in_all_new_Explosion A r id g :
  id ∈ all_ids g -> id ∈ all_ids (new_Explosion A r g).
Proof.
  unfold all_ids. simpl. rewrite all_ids_add, elem_of_add_id'. tauto.
Qed.

Lemma player_kept_update_one A g j :
  wf g -> player ∈ all_ids g ->
  wf (update_one A g j) /\ player ∈ all_ids (update_one A g j).
Proof.
  intros Hw Hin. split; [now apply wf_update_one|].
  unfold update_one. destruct (heap g !! j) as [s|] eqn:Hs; [|exact Hin].
  destruct (update_sprite A (SCORE g) s) as [s' k] eqn:Hu.
  destruct k; [|exact Hin].
  rewrite all_ids_kill. apply elem_of_remove_id. split; [exact Hin|].
  intros <-. destruct (wf_player g Hw) as [p Hp].
  rewrite Hp in Hs. injection Hs as <-. simpl in Hu. congruence.
Qed.

Lemma player_kept_before_collisions A random i g :
  wf g -> player ∈ all_ids g ->
  player ∈ all_ids (before_collisions A random i g).
Proof.
  intros Hw Hin.
  assert (wf (all_update A g) /\ player ∈ all_ids (all_update A g)) as [Hw1 H1].
  { unfold all_update.
    apply (fold_left_inv (fun s => wf s /\ player ∈ all_ids s)); [easy|].
    intros s x [Hs1 Hs2]. now apply player_kept_update_one. }
  assert (player ∈ all_ids (handle_input A i (all_update A g))) as H2.
  { unfold handle_input.
    destruct (heap (all_update A g) !! player) as [[p| | | | |]|]; try exact H1.
    destruct (fires _ _ _); [|exact H1].
    unfold all_ids. simpl. rewrite all_ids_add, elem_of_add_id'. now left. }
  assert (player ∈ all_ids (create_enemy A random
                              (handle_input A i (all_update A g)))) as H3.
  { unfold create_enemy. destruct (negb _); [exact H2|].
    cbn [draw_sample]. destruct (scaled _ _ =? 0); [|exact H2].
    unfold all_ids. simpl. rewrite all_ids_add, elem_of_add_id'. now left. }
  unfold before_collisions, shoot_enemy_bullets.
  destruct (lastenemy _); [|exact H3].
  cbn [draw_sample]. destruct (scaled _ _ =? 0); [|exact H3].
  unfold all_ids. simpl. rewrite all_ids_add, elem_of_add_id'. now left.
Qed.

Lemma player_kept_collisions A g :
  wf g -> player ∈ all_ids g ->
  hits (rect_of g player) g (enemies g) = [] ->
  hits (rect_of g player) g (enemy_bullets g) = [] ->
  player ∈ all_ids (collisions A g).
Proof.
  intros Hw Hin H1 H3.
  destruct (checks_read A g Hw) as (E1 & _ & _ & E3).
  unfold collisions.
  set (r1 := check_player_enemies A g) in *.
  set (r2 := check_shots_enemies A (snd r1)) in *.
  assert (snd r1 = g) as Hg1.
  { unfold r1. rewrite check_player_enemies_eq, H1. reflexivity. }
  assert (player ∈ all_ids (snd r2)) as Hin2.
  { unfold r2. rewrite Hg1.
    destruct (check_shots_enemies_eq A g Hw) as (-> & _). cbn [snd].
    apply fold_left_inv.
    - rewrite all_ids_kill_all. apply elem_of_remove_ids. split; [exact Hin|].
      intros Hk. apply elem_of_killed_by in Hk as (p & Hp & [Hs|He]).
      + apply (proj1 (proj2 (wf_player_notin g Hw))).
        eapply shot_hits_shots; eassumption.
      + apply (proj1 (wf_player_notin g Hw)).
        eapply elem_of_sublist; [|apply (shot_hits_keys (rect_of g) _ (shots g))].
        apply list_elem_of_fmap. exists p. easy.
    - intros s x Hs. unfold shot_enemy_body. now apply in_all_new_Explosion. }
  assert (snd (check_player_bullets A (snd r2)) = snd r2) as ->; [|exact Hin2].
  pose proof E3 as E3'. rewrite H3 in E3'.
  unfold check_player_bullets in *. rewrite spritecollide_spec in *.
  cbn [fst snd] in *. rewrite E3'. reflexivity.
Qed.

Lemma player_bullet_body_kills A g b :
  (player < length (heap g))%nat -> gone player (player_bullet_body A g b).
Proof.
  intros Hlt. split; [apply dead_kill_self|].
  unfold player_bullet_body. simpl. rewrite length_app. lia.
Qed.

Lemma wf_kill_all_player ids g :
  wf g -> (player < length (heap (kill_all ids g)))%nat.
Proof. intros Hw. apply wf_member_lt; [now apply wf_kill_all|auto]. Qed.

Lemma player_dies_in_collisions A g :
  wf g ->
  hits (rect_of g player) g (enemies g) <> []
  \/ hits (rect_of g player) g (enemy_bullets g) <> [] ->
  gone player (collisions A g).
Proof.
  intros Hw Hhit.
  destruct (checks_read A g Hw) as (E1 & _ & _ & E3).
  unfold collisions.
  set (r1 := check_player_enemies A g) in *.
  set (r2 := check_shots_enemies A (snd r1)) in *.
  assert (wf (snd r2)) as Hw2
    by now apply wf_check_shots_enemies, wf_check_player_enemies.
  destruct (hits (rect_of g player) g (enemies g)) as [|e0 rest] eqn:H1.
  - destruct Hhit as [Hhit|Hhit]; [congruence|].
    unfold check_player_bullets in *. rewrite spritecollide_spec in *.
    cbn [fst snd] in *. rewrite E3.
    destruct (hits (rect_of g player) g (enemy_bullets g)) as [|b0 bs]; [congruence|].
    cbn [fold_left]. apply fold_left_inv.
    + apply player_bullet_body_kills. now apply wf_kill_all_player.
    + intros s x. apply gone_player_bullet_body.
  - apply gone_check_player_bullets, gone_check_shots_enemies.
    unfold r1. rewrite check_player_enemies_eq, H1. cbn [snd fold_left].
    apply fold_left_inv.
    + apply player_enemy_body_kills_player. now apply wf_kill_all_player.
    + intros s x. apply gone_player_enemy_body.
Qed.

(** On a pass the player is destroyed if and only if, when the collision
    checks start, his rectangle overlaps an enemy or an enemy bullet; and
    then the session runs no further pass. *)
Theorem player_dies_iff_hit A random i g :
  wf g -> alive player g = true ->
  let g0 := before_collisions A random i g in
  let hit := hits (rect_of g0 player) g0 (enemies g0) <> []
             \/ hits (rect_of g0 player) g0 (enemy_bullets g0) <> [] in
  (alive player (fst (tick A random i g)) = false <-> hit)
  /\ (hit -> forall rest,
        run A random rest (fst (tick A random i g)) = fst (tick A random i g)).
Proof.
  intros Hw Hal g0 hit.
  assert (wf g0) as Hw0 by now apply wf_before_collisions.
  apply (wf_alive_player g Hw) in Hal.
  pose proof (player_kept_before_collisions A random i g Hw Hal) as Hin0.
  fold g0 in Hin0.
  assert (hit -> alive player (fst (tick A random i g)) = false) as Hdead.
  { intros Hhit. rewrite tick_eq. cbn [fst].
    apply gone_all_draw. now apply player_dies_in_collisions. }
  split; [split; [|exact Hdead]|].
  - intros Hd. clear Hdead. subst hit.
    destruct (hits (rect_of g0 player) g0 (enemies g0)) as [|e0 l1] eqn:H1;
      [|left; discriminate].
    destruct (hits (rect_of g0 player) g0 (enemy_bullets g0)) as [|b0 l3] eqn:H3;
      [|right; discriminate].
    exfalso.
    pose proof (player_kept_collisions A g0 Hw0 Hin0 H1 H3) as Hin.
    rewrite tick_eq in Hd. cbn [fst] in Hd.
    assert (alive player (snd (all_draw A (before_draw A random i g))) = true) as Ht.
    { apply alive_in_all. rewrite all_ids_draw. exact Hin. }
    congruence.
  - intros Hhit rest. destruct rest as [|i' rest]; [reflexivity|].
    cbn [run]. now rewrite (Hdead Hhit).
Qed.

(** ** At most [MAX_SHOTS] shots *)

Lemma shots_kill id g : (length (shots (kill id g)) <= length (shots g))%nat.
Proof. simpl. apply length_filter. Qed.

Lemma shots_fold {X} (f : Game -> X -> Game) l g :
  (forall s x, (length (shots (f s x)) <= length (shots s))%nat) ->
  (length (shots (fold_left f l g)) <= length (shots g))%nat.
Proof.
  intros Hf.
  apply (fold_left_inv (fun s => (length (shots s) <= length (shots g))%nat));
    [lia|].
  intros s x Hs. specialize (Hf s x). lia.
Qed.

Lemma shots_update_one A g id :
  (length (shots (update_one A g id)) <= length (shots g))%nat.
Proof.
  unfold update_one. destruct (heap g !! id); [|lia].
  destruct (update_sprite _ _ _) as [s' k].
  destruct k; [|simpl; lia].
  apply (shots_kill id (set_heap g (<[id:=s']> (heap g)))).
Qed.

Lemma shots_spritecollide r n g :
  (length (shots (snd (spritecollide r n g))) <= length (shots g))%nat.
Proof.
  rewrite spritecollide_spec. cbn [snd]. unfold kill_all.
  apply shots_fold. intros s x. apply shots_kill.
Qed.

Lemma shots_groupcollide g :
  (length (shots (snd (groupcollide g))) <= length (shots g))%nat.
Proof.
  unfold groupcollide.
  apply (fold_left_inv (fun acc =>
    (length (shots (snd acc)) <= length (shots g))%nat)); [simpl; lia|].
  intros [c g'] a Hg'. unfold groupcollide_step. cbn [fst snd] in *.
  pose proof (shots_spritecollide (rect_of g' a) Shots g') as H1.
  destruct (spritecollide (rect_of g' a) Shots g') as [col g1]. cbn [snd] in H1.
  destruct col; cbn [snd]; [lia|].
  pose proof (shots_kill a g1). lia.
Qed.

Lemma shots_collisions A g :
  (length (shots (collisions A g)) <= length (shots g))%nat.
Proof.
  unfold collisions, check_player_bullets, check_shots_enemies,
    check_player_enemies.
  pose proof (shots_spritecollide (rect_of g player) Enemies g) as H1.
  destruct (spritecollide (rect_of g player) Enemies g) as [c1 g1].
  cbn [snd] in *.
  set (g1' := fold_left (player_enemy_body A) c1 g1).
  assert (length (shots g1') <= length (shots g1))%nat as H1'.
  { apply shots_fold. intros s x. unfold player_enemy_body.
    simpl. apply length_filter. }
  pose proof (shots_groupcollide g1') as H2.
  destruct (groupcollide g1') as [c2 g2]. cbn [snd] in *.
  set (g2' := fold_left (shot_enemy_body A) (map fst c2) g2).
  assert (length (shots g2') <= length (shots g2))%nat as H2'.
  { apply shots_fold. intros s x. simpl. lia. }
  pose proof (shots_spritecollide (rect_of g2' player) EnemyBullets g2') as H3.
  destruct (spritecollide (rect_of g2' player) EnemyBullets g2') as [c3 g3].
  cbn [snd] in *.
  assert (length (shots (fold_left (player_bullet_body A) c3 g3))
          <= length (shots g3))%nat as H3'.
  { apply shots_fold. intros s x. unfold player_bullet_body.
    simpl. apply length_filter. }
  lia.
Qed.

Lemma shots_handle_input A i g :
  (length (shots g) <= 2)%nat -> (length (shots (handle_input A i g)) <= 2)%nat.
Proof.
  intros H. unfold handle_input.
  destruct (heap g !! player) as [[p| | | | |]|]; try exact H.
  destruct (fires _ _ _) eqn:E; [|exact H].
  apply fires_iff in E as (_ & _ & E). simpl in *.
  unfold add_id. destruct (decide _); [exact H|].
  rewrite length_app. simpl. lia.
Qed.

Lemma shots_tick A random i g :
  (length (shots g) <= 2)%nat ->
  (length (shots (fst (tick A random i g))) <= 2)%nat.
Proof.
  intros H. rewrite tick_eq. cbn [fst].
  destruct (all_draw_frame A (before_draw A random i g)) as (_ & _ & -> & _).
  unfold before_draw.
  pose proof (shots_collisions A (before_collisions A random i g)) as Hc.
  assert (length (shots (before_collisions A random i g)) <= 2)%nat; [|lia].
  unfold before_collisions.
  assert (length (shots (all_update A g)) <= length (shots g))%nat as H1
    by (apply shots_fold; intros s x; apply shots_update_one).
  assert (length (shots (handle_input A i (all_update A g))) <= 2)%nat as H2
    by (apply shots_handle_input; lia).
  assert (forall s, shots (create_enemy A random s) = shots s) as H3.
  { intros s. unfold create_enemy. destruct (negb _); [reflexivity|].
    cbn [draw_sample]. now destruct (scaled _ _ =? 0). }
  assert (forall s, shots (shoot_enemy_bullets A random s) = shots s) as H4.
  { intros s. unfold shoot_enemy_bullets. destruct (lastenemy s); [|reflexivity].
    cbn [draw_sample]. now destruct (scaled _ _ =? 0). }
  now rewrite H4, H3.
Qed.

(** Throughout a session at most two of the player's shots are alive. *)
Theorem never_more_than_two_shots A random inputs :
  (length (shots (run A random inputs (start A random))) <= 2)%nat
  /\ Z.of_nat (length (shots (run A random inputs (start A random)))) <= MAX_SHOTS.
Proof.
  assert (length (shots (run A random inputs (start A random))) <= 2)%nat as H.
  { rewrite run_ticks. unfold ticks. apply fold_left_inv.
    - unfold start. destruct (font_available A); simpl; lia.
    - intros s x. apply shots_tick. }
  split; [exact H|]. unfold MAX_SHOTS. lia.
Qed.

(** ** The enemy countdown *)






(** ** The score line *)

Lemma score_update_result score c :
  Score.update score c = Score.mk (Score.rect c) score.
Proof.
  unfold Score.update. destruct (Z.eqb_spec score (Score.lastscore c)) as [->|];
    [now destruct c|reflexivity].
Qed.

Lemma update_one_score_line A g j sid c :
  heap g !! sid = Some (AScore c) ->
  heap (update_one A g j) !! sid
  = Some (AScore (if decide (j = sid) then Score.mk (Score.rect c) (SCORE g) else c)).
Proof.
  intros Hc. unfold update_one.
  destruct (decide (j = sid)) as [->|Hne].
  - rewrite Hc. cbn [update_sprite]. rewrite score_update_result. simpl.
    apply list_lookup_insert_eq. eapply lookup_lt_Some; eassumption.
  - destruct (heap g !! j) as [s|]; [|exact Hc].
    destruct (update_sprite _ _ _) as [s' k].
    assert (heap (set_heap g (<[j:=s']> (heap g))) !! sid = Some (AScore c)) as H
      by (simpl; now rewrite list_lookup_insert_ne).
    destruct k; exact H.
Qed.

Lemma all_update_score_line A l g sid c :
  sid ∈ l -> heap g !! sid = Some (AScore c) ->
  heap (fold_left (update_one A) l g) !! sid
  = Some (AScore (Score.mk (Score.rect c) (SCORE g))).
Proof.
  revert g c. induction l as [|j l IH]; intros g c Hin Hc.
  - now apply elem_of_nil in Hin.
  - cbn [fold_left].
    pose proof (update_one_score_line A g j sid c Hc) as H1.
    pose proof (update_one_SCORE A g j) as HS.
    destruct (decide (j = sid)) as [->|Hne].
    + clear IH Hin.
      assert (forall s, SCORE s = SCORE g ->
                heap s !! sid = Some (AScore (Score.mk (Score.rect c) (SCORE g))) ->
                SCORE (fold_left (update_one A) l s) = SCORE g
                /\ heap (fold_left (update_one A) l s) !! sid
                   = Some (AScore (Score.mk (Score.rect c) (SCORE g)))) as Hkeep.
      { intros s Hs Hl. apply (fold_left_inv (fun s' =>
          SCORE s' = SCORE g
          /\ heap s' !! sid = Some (AScore (Score.mk (Score.rect c) (SCORE g)))));
          [easy|].
        intros s' x [Hs' Hl']. split; [now rewrite update_one_SCORE|].
        rewrite (update_one_score_line A s' x sid _ Hl'), Hs'.
        now destruct (decide (x = sid)). }
      now apply Hkeep.
    + apply elem_of_cons in Hin as [Hin|Hin]; [congruence|].
      rewrite (IH _ c Hin H1), HS. reflexivity.
Qed.

(** The score line lags by one pass: [all.update()] runs before the
    collision checks, so after a pass the score sprite shows the score as it
    was when the pass began, whatever the pass added; and its rectangle is
    the one of the first rendering for ever. *)
Theorem score_line_lags A random i g sid c :
  sid <> player -> sid ∈ all_ids g -> heap g !! sid = Some (AScore c) ->
  heap (fst (tick A random i g)) !! sid
  = Some (AScore (Score.mk (Score.rect c) (SCORE g))).
Proof.
  intros Hne Hin Hc.
  eapply extends_lookup; [apply extends_after_input|].
  apply handle_input_other; [exact Hne|].
  now apply all_update_score_line.
Qed.

(** ** Lifetimes of the sprites *)

Lemma updates_0 {T} (update : T -> T * bool) x : updates update 0 x = x.
Proof. reflexivity. Qed.

Lemma updates_S {T} (update : T -> T * bool) n x :
  updates update (S n) x = fst (update (updates update n x)).
Proof. reflexivity. Qed.

(** An explosion keeps its place, counts its life down from 12 and kills
    itself on its twelfth update, not before. *)
Theorem explosion_lifetime sz r n :
  let x := updates Explosion.update n (Explosion.init sz r) in
  Explosion.life x = 12 - Z.of_nat n
  /\ Explosion.rect x = Explosion.rect (Explosion.init sz r)
  /\ (snd (Explosion.update x) = true <-> (11 <= n)%nat).
Proof.
  cbv zeta.
  assert (Explosion.life (updates Explosion.update n (Explosion.init sz r))
          = 12 - Z.of_nat n
          /\ Explosion.rect (updates Explosion.update n (Explosion.init sz r))
             = Explosion.rect (Explosion.init sz r)) as [Hl Hr].
  { induction n as [|n [IH1 IH2]]; [easy|].
    rewrite updates_S.
    set (y := updates Explosion.update n (Explosion.init sz r)) in *.
    clearbody y. destruct y as [im rc lf]. simpl in *. subst. split; [lia|reflexivity]. }
  split; [exact Hl|]. split; [exact Hr|].
  set (y := updates Explosion.update n (Explosion.init sz r)) in *.
  clearbody y. destruct y as [im rc lf]. simpl in *. subst.
  rewrite Z.leb_le. lia.
Qed.

(** An enemy comes down 5 pixels per update in its column, from just above
    the screen, and kills itself on the update that brings its top edge to
    the bottom of the play-field or below. *)
Theorem enemy_descent sz x0 n :
  let e := updates Enemy.update n (Enemy.init sz x0) in
  Enemy.rect e = mkRect x0 (- snd sz + 5 * Z.of_nat n) (fst sz) (snd sz)
  /\ Enemy.frame e = Z.of_nat n
  /\ Enemy.image e = 0
  /\ (snd (Enemy.update e) = true <-> 480 <= - snd sz + 5 * Z.of_nat (S n)).
Proof.
  cbv zeta.
  assert (Enemy.rect (updates Enemy.update n (Enemy.init sz x0))
          = mkRect x0 (- snd sz + 5 * Z.of_nat n) (fst sz) (snd sz)
          /\ Enemy.frame (updates Enemy.update n (Enemy.init sz x0)) = Z.of_nat n
          /\ Enemy.facing (updates Enemy.update n (Enemy.init sz x0)) = 5
          /\ Enemy.image (updates Enemy.update n (Enemy.init sz x0)) = 0)
    as (Hr & Hf & Hd & Hi).
  { induction n as [|n (IH1 & IH2 & IH3 & IH4)].
    - unfold updates, Enemy.init, Rect.of_topleft. simpl.
      repeat split. f_equal. lia.
    - rewrite updates_S.
      set (y := updates Enemy.update n (Enemy.init sz x0)) in *.
      clearbody y. destruct y as [im rc fc fr].
      cbn [Enemy.rect Enemy.frame Enemy.facing Enemy.image] in *. subst.
      unfold Enemy.update, Rect.move.
      cbn [fst Enemy.rect Enemy.frame Enemy.facing Enemy.image rx ry rw rh].
      repeat split; [f_equal; lia|lia|].
      unfold len_Enemy_images. apply Z.mod_1_r. }
  split; [exact Hr|]. split; [exact Hf|]. split; [exact Hi|].
  set (y := updates Enemy.update n (Enemy.init sz x0)) in *.
  clearbody y. destruct y as [im rc fc fr].
  cbn [Enemy.rect Enemy.frame Enemy.facing Enemy.image] in *. subst.
  unfold Enemy.update, Rect.top, Rect.move, SCREENRECT.
  cbn [snd Enemy.rect Enemy.facing rx ry rw rh].
  rewrite Z.leb_le. lia.
Qed.

(** A shot starts with its bottom edge on the player's top edge, centred 11
    pixels beside the player's centre, on the side opposite to the facing;
    it climbs 11 pixels per update and kills itself on the update that brings
    its bottom edge to the top of the play-field or above. *)
Theorem shot_flight sz p n :
  let s := updates (Shot.update (snd sz)) n (Shot.init sz (Player.gunpos p)) in
  Rect.bottom (Shot.rect s) = Rect.top (Player.rect p) - 11 * Z.of_nat n
  /\ Rect.centerx (Shot.rect s)
     = Rect.centerx (Player.rect p) - 11 * Player.facing p
  /\ (snd (Shot.update (snd sz) s) = true
      <-> Rect.top (Player.rect p) <= 11 * Z.of_nat (S n)).
Proof.
  cbv zeta.
  assert (Shot.rect (updates (Shot.update (snd sz)) n (Shot.init sz (Player.gunpos p)))
          = mkRect (Player.facing p * -11 + Rect.centerx (Player.rect p)
                    - Z.quot (fst sz) 2)
                   (Rect.top (Player.rect p) - snd sz - 11 * Z.of_nat n)
                   (fst sz) (snd sz)) as Hr.
  { induction n as [|n IH].
    - rewrite updates_0.
      unfold Shot.init, Rect.of_midbottom, Player.gunpos, Player.gun_offset.
      cbn [Shot.rect fst snd]. f_equal. lia.
    - rewrite updates_S.
      set (y := updates (Shot.update (snd sz)) n (Shot.init sz (Player.gunpos p))) in *.
      clearbody y. destruct y as [rc]. cbn [Shot.rect] in *. subst.
      unfold Shot.update, Rect.move, Shot.speed.
      cbn [fst Shot.rect rx ry rw rh]. f_equal; lia. }
  set (y := updates (Shot.update (snd sz)) n (Shot.init sz (Player.gunpos p))) in *.
  clearbody y. destruct y as [rc]. cbn [Shot.rect] in *. subst.
  unfold Shot.update, Rect.bottom, Rect.centerx, Rect.top, Rect.move, Shot.speed.
  cbn [snd Shot.rect rx ry rw rh]. rewrite Z.leb_le. repeat split; lia.
Qed.

(** An enemy bullet starts centred under its enemy, 5 pixels below the
    enemy's bottom edge, falls 9 pixels per update and kills itself on the
    update that brings its bottom edge to the bottom of the play-field. *)
Theorem enemy_bullet_fall sz er n :
  let b := updates EnemyBullet.update n (EnemyBullet.init sz er) in
  Rect.bottom (EnemyBullet.rect b) = Rect.bottom er + 5 + 9 * Z.of_nat n
  /\ Rect.centerx (EnemyBullet.rect b) = Rect.centerx er
  /\ (snd (EnemyBullet.update b) = true
      <-> 480 <= Rect.bottom er + 5 + 9 * Z.of_nat (S n)).
Proof.
  cbv zeta.
  assert (EnemyBullet.rect (updates EnemyBullet.update n (EnemyBullet.init sz er))
          = mkRect (Rect.centerx er - Z.quot (fst sz) 2)
                   (Rect.bottom er + 5 - snd sz + 9 * Z.of_nat n)
                   (fst sz) (snd sz)) as Hr.
  { induction n as [|n IH].
    - rewrite updates_0.
      unfold EnemyBullet.init, Rect.of_midbottom, Rect.midbottom,
        Rect.move, Rect.centerx, Rect.bottom.
      cbn [EnemyBullet.rect fst snd rx ry rw rh]. f_equal; lia.
    - rewrite updates_S.
      set (y := updates EnemyBullet.update n (EnemyBullet.init sz er)) in *.
      clearbody y. destruct y as [rc]. cbn [EnemyBullet.rect] in *. subst.
      unfold EnemyBullet.update, Rect.move, EnemyBullet.speed.
      cbn [fst EnemyBullet.rect rx ry rw rh]. f_equal; lia. }
  set (y := updates EnemyBullet.update n (EnemyBullet.init sz er)) in *.
  clearbody y. destruct y as [rc]. cbn [EnemyBullet.rect] in *. subst.
  unfold EnemyBullet.update, Rect.bottom, Rect.centerx, Rect.move,
    EnemyBullet.speed, SCREENRECT.
  cbn [snd EnemyBullet.rect rx ry rw rh]. rewrite Z.leb_le. repeat split; lia.
Qed.

(** ** The background *)

Lemma py_range_pos stop step :
  0 < step -> 0 < stop ->
  exists l, py_range stop step = Some l
    /\ l <> []
    /\ length l = Z.to_nat ((stop + step - 1) / step)
    /\ (forall p, 0 <= p < stop -> p / step * step ∈ l)
    /\ (forall x, x ∈ l -> 0 <= x < stop).
Proof.
  intros Hstep Hstop. unfold py_range.
  destruct (Z.eqb_spec step 0); [lia|].
  destruct (Z.ltb_spec step 0); [lia|].
  eexists. split; [reflexivity|].
  assert ((stop + step - 1) / step = (stop - 1) / step + 1) as Hq.
  { replace (stop + step - 1) with (stop - 1 + 1 * step) by lia.
    apply Z.div_add. lia. }
  assert (0 <= (stop - 1) / step) as Hq0 by (apply Z.div_pos; lia).
  assert (step * ((stop - 1) / step) <= stop - 1) as Hq1
    by (apply Z.mul_div_le; lia).
  rewrite Hq. repeat apply conj.
  - intros Hnil. apply (f_equal length) in Hnil.
    rewrite length_fmap, length_seq in Hnil. simpl in Hnil. lia.
  - now rewrite length_fmap, length_seq.
  - intros p Hp. apply list_elem_of_fmap.
    assert (0 <= p / step) as Hp0 by (apply Z.div_pos; lia).
    assert (p / step <= (stop - 1) / step) as Hp1
      by (apply Z.div_le_mono; lia).
    exists (Z.to_nat (p / step)). split; [now rewrite Z2Nat.id|].
    apply elem_of_seq. lia.
  - intros x Hx. apply list_elem_of_fmap in Hx as (k & -> & Hk).
    apply elem_of_seq in Hk. nia.
Qed.

(** The background is tiled from the top left corner, column by column: for
    a tile with an area the blits cover every pixel of the play-field, each
    tile starts on the play-field, and there are
    [ceil(640/w) * ceil(480/h)] of them.  A tile without width makes
    [range] raise, and so does a tile with a width but without height. *)
Theorem background_is_covered tile :
  (fst tile = 0 \/ (0 < fst tile /\ snd tile = 0) -> render_background tile = None)
  /\ (0 < fst tile -> 0 < snd tile ->
      exists tiles,
        render_background tile = Some tiles
        /\ length tiles
           = (Z.to_nat ((640 + fst tile - 1) / fst tile)
              * Z.to_nat ((480 + snd tile - 1) / snd tile))%nat
        /\ (forall px py, 0 <= px < 640 -> 0 <= py < 480 ->
              exists x y, (x, y) ∈ tiles
                          /\ x <= px < x + fst tile /\ y <= py < y + snd tile)
        /\ (forall x y, (x, y) ∈ tiles -> 0 <= x < 640 /\ 0 <= y < 480)).
Proof.
  destruct tile as [w h]. cbn [fst snd]. split.
  - intros [->|[Hw ->]]; [reflexivity|].
    destruct (py_range_pos 640 w Hw ltac:(lia)) as (xs & Hxs & Hne & _).
    unfold render_background. cbn [fst snd rw rh SCREENRECT]. rewrite Hxs. simpl.
    destruct xs; [congruence|reflexivity].
  - intros Hw Hh.
    destruct (py_range_pos 640 w Hw ltac:(lia)) as (xs & Hxs & Hne & Lx & Cx & Bx).
    destruct (py_range_pos 480 h Hh ltac:(lia)) as (ys & Hys & _ & Ly & Cy & By).
    exists (x ← xs; (fun y => (x, y)) <$> ys). repeat apply conj.
    + unfold render_background. cbn [fst snd rw rh SCREENRECT]. rewrite Hxs. simpl.
      destruct xs; [congruence|]. rewrite Hys. reflexivity.
    + rewrite <- Lx, <- Ly. clear. induction xs as [|x xs IH]; [reflexivity|].
      cbn. rewrite length_app, length_fmap. cbn in IH. rewrite IH. reflexivity.
    + intros px py Hpx Hpy. exists (px / w * w), (py / h * h).
      split.
      * apply list_elem_of_bind. exists (px / w * w). split; [|now apply Cx].
        apply list_elem_of_fmap. exists (py / h * h). split; [reflexivity|now apply Cy].
      * pose proof (Z.mul_div_le px w Hw). pose proof (Z.mul_div_le py h Hh).
        pose proof (Z.mul_succ_div_gt px w Hw).
        pose proof (Z.mul_succ_div_gt py h Hh). lia.
    + intros x y Hin. apply list_elem_of_bind in Hin as (x' & Hin & Hx').
      apply list_elem_of_fmap in Hin as (y' & [= -> ->] & Hy').
      split; [now apply Bx|now apply By].
Qed.

(** ** The player's facing *)

Lemma direction_cases i : direction i = -1 \/ direction i = 0 \/ direction i = 1.
Proof. unfold direction. destruct (K_RIGHT i), (K_LEFT i); simpl; lia. Qed.

(** The player faces left at the start; a pass with exactly one of the
    arrow keys down turns him to that side, any other pass leaves the facing
    as it is.  So the facing is -1 or 1 throughout a session, and the gun is
    11 pixels to the right of the centre when he faces left and 11 pixels to
    the left when he faces right. *)
Theorem player_facing A random :
  (forall i g p,
      heap g !! player = Some (APlayer p) ->
      player_is (fun p' =>
                   Player.facing p'
                   = if direction i =? 0 then Player.facing p else direction i)
                (fst (tick A random i g)))
  /\ (forall inputs,
        player_is (fun p => (Player.facing p = -1 \/ Player.facing p = 1)
                            /\ fst (Player.gunpos p)
                               = Rect.centerx (Player.rect p) - 11 * Player.facing p)
                  (run A random inputs (start A random))).
Proof.
  assert (forall i g p,
      heap g !! player = Some (APlayer p) ->
      player_is (fun p' =>
                   Player.facing p'
                   = if direction i =? 0 then Player.facing p else direction i)
                (fst (tick A random i g))) as Htick.
  { intros i g p Hp.
    destruct (player_is_all_update A (fun q => Player.facing q = Player.facing p) g)
      as (p0 & Hp0 & Hf);
      [intros q Hq; exact Hq|exists p; split; [exact Hp|reflexivity]|].
    eexists. split.
    - eapply extends_lookup; [apply extends_after_input|].
      exact (handle_input_player A i _ p0 Hp0).
    - simpl. now rewrite Hf. }
  split; [exact Htick|].
  intros inputs. rewrite run_ticks.
  assert (player_is (fun p => Player.facing p = -1 \/ Player.facing p = 1)
                    (ticks A random (passes A random inputs (start A random))
                           (start A random))) as (p & Hp & Hf).
  { unfold ticks. apply fold_left_inv.
    - exists (Player.init (player_size A 0)). split; [|now left].
      unfold start. now destruct (font_available A).
    - intros s x (p & Hp & Hf).
      destruct (Htick x s p Hp) as (p' & Hp' & Hf').
      exists p'. split; [exact Hp'|]. rewrite Hf'.
      destruct (direction_cases x) as [E|[E|E]]; rewrite E; simpl; tauto. }
  exists p. split; [exact Hp|]. split; [exact Hf|].
  unfold Player.gunpos, Player.gun_offset. cbn [fst]. lia.
Qed.

(** ** Erasing *)

(** What [all.clear] paints over at the start of a pass is what the draw of
    the pass before has put on the screen: for every member of the render
    group the part of its image that fell on the screen, and nothing for a
    member that was drawn off the screen; no rectangle of a removed member is
    left to erase. *)
Theorem clear_erases_last_draw A random i g :
  let g1 := before_draw A random i g in
  clear (fst (tick A random i g))
  = filter (fun r => Rect.nonzero r) (map (fun e => drawn_rect A g1 (fst e)) (all g1)).
Proof.
  intros g1. rewrite tick_eq. cbn [fst]. fold g1. unfold clear.
  destruct (all_draw_frame A g1) as (_ & _ & _ & _ & _ & _ & _ & _ & ->).
  destruct (all_draw_spec A g1) as [_ ->]. cbn [app].
  induction (all g1) as [|e l IH]; [reflexivity|].
  cbn [map omap list_omap]. rewrite filter_cons. cbn [snd fst].
  destruct (Rect.nonzero (drawn_rect A g1 (fst e))) eqn:E.
  - rewrite decide_True by exact I. f_equal. exact IH.
  - rewrite decide_False by (intros []). exact IH.
Qed.

(** ** A shot is taken once *)

Lemma shot_hits_NoDup rect es ss :
  NoDup ss -> NoDup (flat_map snd (shot_hits rect es ss)).
Proof.
  revert ss. induction es as [|e es IH]; intros ss Hnd; cbn [shot_hits].
  - constructor.
  - destruct (filter _ ss) as [|c cs] eqn:Ef; [now apply IH|].
    rewrite <- Ef. cbn [flat_map snd]. apply NoDup_app. repeat split.
    + now apply NoDup_filter.
    + intros x Hx Hin. apply list_elem_of_In, in_flat_map in Hin as (p & Hp & Hs).
      apply list_elem_of_In in Hp, Hs.
      pose proof (shot_hits_shots _ _ _ p x Hp Hs) as Hr.
      apply elem_of_remove_ids in Hr as [_ Hr]. now apply Hr.
    + apply IH. now apply NoDup_filter.
Qed.

Lemma shot_hits_no_shots rect es : shot_hits rect es [] = [].
Proof. induction es as [|e es IH]; [reflexivity|exact IH]. Qed.

(** Every shot is taken by at most one enemy: the lists [groupcollide]
    reports for the enemies share no shot.  So when one shot lies over two
    enemies, only the first of them in the order of the group is destroyed,
    although the shot existed and overlapped the second one when the
    collision phase began. *)
Theorem shot_taken_once A g :
  wf g -> NoDup (shots g) ->
  NoDup (flat_map snd (fst (groupcollide g)))
  /\ (forall e1 e2 s l,
        enemies g = e1 :: e2 :: l -> shots g = [s] ->
        Rect.colliderect (rect_of g e1) (rect_of g s) = true ->
        fst (check_shots_enemies A g) = [e1]
        /\ shots (snd (check_shots_enemies A g)) = []
        /\ e2 ∈ enemies (snd (check_shots_enemies A g))).
Proof.
  intros Hw Hnd.
  assert (forall e, e ∈ enemies g -> e ∉ shots g) as Hd
    by (intros e He; now apply (wf_enemy_notin g e Hw)).
  split.
  - rewrite groupcollide_spec by exact Hd. cbn [fst]. now apply shot_hits_NoDup.
  - intros e1 e2 s l He Hs Hc.
    destruct (check_shots_enemies_eq A g Hw) as (Heq & Hen & _).
    cbv zeta in Heq, Hen.
    assert (shot_hits (rect_of g) (enemies g) (shots g) = [(e1, [s])]) as HH.
    { rewrite He, Hs. cbn [shot_hits]. rewrite filter_cons, Hc.
      rewrite decide_True by exact I. rewrite filter_nil.
      assert (remove_ids [s] [s] = []) as ->.
      { unfold remove_ids. rewrite filter_cons, decide_False, filter_nil;
          [reflexivity|]. intros Hn. apply Hn. now left. }
      now rewrite shot_hits_no_shots. }
    rewrite HH in Heq, Hen. cbn [map fst] in Heq, Hen.
    rewrite Heq. cbn [fst snd].
    destruct (shot_enemy_fold_frame A [e1] (kill_all (killed_by [(e1, [s])]) g))
      as (_ & Fe & Fs & _).
    cbv zeta in Fe, Fs. rewrite Fe, Fs, Hen.
    destruct (kill_all_groups (killed_by [(e1, [s])]) g) as (_ & Ks & _).
    rewrite Ks, Hs. repeat apply conj.
    + reflexivity.
    + unfold remove_ids. rewrite filter_cons, decide_False, filter_nil;
        [reflexivity|]. intros Hn. apply Hn. cbn. now left.
    + apply elem_of_remove_ids. rewrite He. split.
      * right. now left.
      * destruct Hw as (_ & _ & _ & _ & Hne & _). rewrite He in Hne.
        apply NoDup_cons in Hne as [Hne _].
        rewrite list_elem_of_singleton. intros ->. apply Hne. now left.
Qed.

(** ** The properties above on concrete sessions *)

Lemma killed_stays_dead_witness :
  (3 < length (heap newest_shot_down))%nat
  /\ alive 3 newest_shot_down = false
  /\ alive 3 (ticks demo_assets demo_random [no_keys; fire_key] newest_shot_down)
     = false.
Proof.
  assert (3 < length (heap newest_shot_down))%nat as Hl by (vm_compute; lia).
  assert (alive 3 newest_shot_down = false) as Hd by (vm_compute; reflexivity).
  split; [exact Hl|]. split; [exact Hd|].
  exact (killed_stays_dead demo_assets demo_random [no_keys; fire_key] 3
                           newest_shot_down Hl Hd).
Defined.

Lemma player_dies_iff_hit_witness :
  wf (start demo_assets demo_random)
  /\ alive player (start demo_assets demo_random) = true
  /\ (alive player (fst (tick demo_assets demo_random no_keys
                              (start demo_assets demo_random))) = false
      <-> hits (rect_of (before_collisions demo_assets demo_random no_keys
                           (start demo_assets demo_random)) player)
               (before_collisions demo_assets demo_random no_keys
                  (start demo_assets demo_random))
               (enemies (before_collisions demo_assets demo_random no_keys
                           (start demo_assets demo_random))) <> []
          \/ hits (rect_of (before_collisions demo_assets demo_random no_keys
                              (start demo_assets demo_random)) player)
                  (before_collisions demo_assets demo_random no_keys
                     (start demo_assets demo_random))
                  (enemy_bullets (before_collisions demo_assets demo_random no_keys
                                    (start demo_assets demo_random))) <> []).
Proof.
  assert (alive player (start demo_assets demo_random) = true) as Ha
    by (vm_compute; reflexivity).
  split; [apply wf_start|]. split; [exact Ha|].
  exact (proj1 (player_dies_iff_hit demo_assets demo_random no_keys
                  (start demo_assets demo_random)
                  (wf_start demo_assets demo_random) Ha)).
Defined.

Lemma score_line_lags_witness :
  2%nat <> player
  /\ 2%nat ∈ all_ids (start demo_assets demo_random)
  /\ heap (fst (tick demo_assets demo_random no_keys
                     (start demo_assets demo_random))) !! 2%nat
     = Some (AScore (Score.mk (Score.rect (Score.init (score_size demo_assets 0) 0))
                              (SCORE (start demo_assets demo_random)))).
Proof.
  split; [discriminate|]. split; [vm_compute; repeat constructor|].
  apply (score_line_lags demo_assets demo_random no_keys
                         (start demo_assets demo_random) 2
                         (Score.init (score_size demo_assets 0) 0)).
  - discriminate.
  - vm_compute. repeat constructor.
  - reflexivity.
Defined.

Lemma shot_taken_once_witness :
  wf two_enemies_one_shot
  /\ NoDup (shots two_enemies_one_shot)
  /\ enemies two_enemies_one_shot = [1; 3]%nat
  /\ shots two_enemies_one_shot = [4%nat]
  /\ hits (rect_of two_enemies_one_shot 4%nat) two_enemies_one_shot
          (enemies two_enemies_one_shot) = [1; 3]%nat
  /\ fst (check_shots_enemies tall_shot_assets two_enemies_one_shot) = [1%nat]
  /\ shots (snd (check_shots_enemies tall_shot_assets two_enemies_one_shot)) = []
  /\ 3%nat ∈ enemies (snd (check_shots_enemies tall_shot_assets two_enemies_one_shot)).
Proof.
  assert (wf two_enemies_one_shot) as Hw
    by apply wf_before_collisions, wf_ticks, wf_start.
  assert (NoDup (shots two_enemies_one_shot)) as Hnd
    by (apply (bool_decide_unpack _); vm_compute; exact I).
  assert (enemies two_enemies_one_shot = [1; 3]%nat) as He
    by (vm_compute; reflexivity).
  assert (shots two_enemies_one_shot = [4%nat]) as Hs
    by (vm_compute; reflexivity).
  assert (Rect.colliderect (rect_of two_enemies_one_shot 1%nat)
                           (rect_of two_enemies_one_shot 4%nat) = true) as Hc
    by (vm_compute; reflexivity).
  split; [exact Hw|]. split; [exact Hnd|]. split; [exact He|].
  split; [exact Hs|]. split; [vm_compute; reflexivity|].
  exact (proj2 (shot_taken_once tall_shot_assets two_enemies_one_shot Hw Hnd)
           1%nat 3%nat 4%nat [] He Hs Hc).
Defined.
